(** * Mario Trap Avoidance: the grid engine and its A* search

    A shallow embedding of [mario_engine.py] (class [MarioTrapAvoidance])
    and of the [find_path] handler of [app.py], followed by the properties
    of the design document that can be stated over them.

    Python values are modelled as follows.
    - [int] is [Z]; a coordinate [(x, y)] is a pair [Z * Z].
    - [self.grid] is a list of rows, [list (list Z)]; [grid[y][x]] follows
      Python's indexing (negative indices count from the end, anything
      outside raises [IndexError]).
    - [dict] / [defaultdict] are [gmap]s; an absent key of the
      [defaultdict(lambda: float('inf'))] tables stands for [inf].
    - [set] is [gset].
    - [heapq] on a list of tuples [(f, (x, y))]: tuples are totally ordered
      (lexicographically), [heappop] returns the least tuple of the heap,
      so the heap is kept as the sorted list of its entries.
    - exceptions and unbounded [while] loops: a result type [outcome] with
      [Raise] and [OutOfFuel]. *)

From stdpp Require Import gmap list sorting.
From Stdlib Require Import ZArith Lia.

Local Open Scope Z_scope.

(** ** Outcomes of a call *)

Inductive exn : Type :=
  | IndexError          (* list index out of range *)
  | ValueError          (* random.randint on an empty range *)
  | InvalidSizeError    (* named by the design document; never raised by the source *)
  | InvalidGridError.   (* named by the design document; never raised by the source *)

Inductive outcome (A : Type) : Type :=
  | Done (a : A)
  | Raise (e : exn)
  | OutOfFuel.

Arguments Done {A} a.
Arguments Raise {A} e.
Arguments OutOfFuel {A}.

Definition obind {A B} (m : outcome A) (k : A → outcome B) : outcome B :=
  match m with
  | Done a => k a
  | Raise e => Raise e
  | OutOfFuel => OutOfFuel
  end.

Notation "'do' x <- m ; k" := (obind m (fun x => k))
  (at level 20, x pattern, m at level 100, k at level 200, only parsing).

Fixpoint foldM {A S} (f : S → A → outcome S) (l : list A) (s : S) : outcome S :=
  match l with
  | [] => Done s
  | a :: l' => do s' <- f s a; foldM f l' s'
  end.

(** ** Python list indexing *)

Definition py_norm (len i : Z) : option nat :=
  let j := if i <? 0 then i + len else i in
  if (0 <=? j) && (j <? len) then Some (Z.to_nat j) else None.

Definition py_getitem {A} (l : list A) (i : Z) : outcome A :=
  match py_norm (Z.of_nat (length l)) i with
  | None => Raise IndexError
  | Some j => match l !! j with Some a => Done a | None => Raise IndexError end
  end.

Definition py_setitem {A} (l : list A) (i : Z) (a : A) : outcome (list A) :=
  match py_norm (Z.of_nat (length l)) i with
  | None => Raise IndexError
  | Some j => Done (<[j := a]> l)
  end.

(** ** The engine object *)

Definition coord : Type := Z * Z.

Definition EMPTY : Z := 0.
Definition TRAP : Z := 1.
Definition DANGEROUS : Z := 2.

Record MarioTrapAvoidance : Type := mkGame {
  grid_size : Z;
  grid : list (list Z);
  start : coord;
  goal : coord
}.

(** [[[0 for _ in range(n)] for _ in range(n)]] *)
Definition zero_grid (n : Z) : list (list Z) :=
  replicate (Z.to_nat n) (replicate (Z.to_nat n) 0).

(** [MarioTrapAvoidance.__init__] *)
Definition init (size : Z) : outcome MarioTrapAvoidance :=
  Done {| grid_size := size;
          grid := zero_grid size;
          start := (0, 0);
          goal := (size - 1, size - 1) |}.

(** [self.grid[y][x]] *)
Definition grid_get (g : list (list Z)) (x y : Z) : outcome Z :=
  do row <- py_getitem g y; py_getitem row x.

(** [self.grid[y][x] = v] *)
Definition grid_set (g : list (list Z)) (x y v : Z) : outcome (list (list Z)) :=
  do row <- py_getitem g y;
  do row' <- py_setitem row x v;
  py_setitem g y row'.

Definition directions : list (Z * Z) := [(0, 1); (1, 0); (0, -1); (-1, 0)].

Definition in_range (n x y : Z) : bool :=
  (0 <=? x) && (x <? n) && (0 <=? y) && (y <? n).

(** [MarioTrapAvoidance.get_neighbors] *)
Definition get_neighbors (self : MarioTrapAvoidance) (x y : Z) : list coord :=
  flat_map (fun d : Z * Z =>
              let nx := x + d.1 in
              let ny := y + d.2 in
              if in_range (grid_size self) nx ny then [(nx, ny)] else [])
           directions.

(** [MarioTrapAvoidance.is_safe_path] *)
Definition is_safe_path (self : MarioTrapAvoidance) (x y : Z) : outcome bool :=
  do c <- grid_get (grid self) x y;
  if c =? TRAP then Done false
  else
    do dangerous_count <-
       foldM (fun (cnt : Z) (n : coord) =>
                do v <- grid_get (grid self) n.1 n.2;
                Done (if (v =? DANGEROUS) || (v =? TRAP) then cnt + 1 else cnt))
             (get_neighbors self x y) 0;
    if 3 <=? dangerous_count then Done false else Done true.

(** [MarioTrapAvoidance.heuristic] *)
Definition heuristic (self : MarioTrapAvoidance) (pos : coord) : Z :=
  Z.abs (pos.1 - (goal self).1) + Z.abs (pos.2 - (goal self).2).

(** ** [MarioTrapAvoidance.initialize_grid]

    [random.randint(a, b)] raises [ValueError] on an empty range and
    otherwise returns some integer of [a..b]; the integers it returns are
    supplied by [rnd], the [k]-th call returning [rnd k]. *)

Definition randint (a b r : Z) : outcome Z :=
  if b <? a then Raise ValueError else Done r.

(** The [while] loop that places the traps.  [calls] counts the calls of
    [randint] made so far. *)
Fixpoint place_traps_loop (fuel : nat) (self : MarioTrapAvoidance) (rnd : nat → Z)
    (trap_count max_attempts : Z) (g : list (list Z)) (traps_placed attempts : Z)
    (calls : nat) : outcome (list (list Z) * Z * Z) :=
  if (traps_placed <? trap_count) && (attempts <? max_attempts) then
    match fuel with
    | O => OutOfFuel
    | S fuel' =>
        do x <- randint 0 (grid_size self - 1) (rnd calls);
        do y <- randint 0 (grid_size self - 1) (rnd (S calls));
        do gp <-
          (if bool_decide ((x, y) ≠ start self) && bool_decide ((x, y) ≠ goal self) then
             do c <- grid_get g x y;
             if negb (c =? TRAP) then
               do g' <- grid_set g x y TRAP; Done (g', traps_placed + 1)
             else Done (g, traps_placed)
           else Done (g, traps_placed));
        place_traps_loop fuel' self rnd trap_count max_attempts
                         gp.1 gp.2 (attempts + 1) (S (S calls))
    end
  else Done (g, traps_placed, attempts).

(** The body of [for nx, ny in self.get_neighbors(x, y)]. *)
Definition mark_neighbor (g : list (list Z)) (n : coord) : outcome (list (list Z)) :=
  do w <- grid_get g n.1 n.2;
  if w =? EMPTY then grid_set g n.1 n.2 DANGEROUS else Done g.

(** The body of [for x in range(self.grid_size)]. *)
Definition mark_around (self : MarioTrapAvoidance) (g : list (list Z)) (c : coord) :
    outcome (list (list Z)) :=
  do v <- grid_get g c.1 c.2;
  if v =? TRAP then foldM mark_neighbor (get_neighbors self c.1 c.2) g
  else Done g.

(** The two nested [for] loops that mark the dangerous zones. *)
Definition mark_dangerous (self : MarioTrapAvoidance) (g : list (list Z)) :
    outcome (list (list Z)) :=
  foldM (fun g y =>
           foldM (fun g x => mark_around self g (x, y)) (seqZ 0 (grid_size self)) g)
        (seqZ 0 (grid_size self)) g.

Definition with_grid (self : MarioTrapAvoidance) (g : list (list Z)) : MarioTrapAvoidance :=
  {| grid_size := grid_size self; grid := g; start := start self; goal := goal self |}.

(** The grid after the placement loop (lines 49-66). *)
Definition place_traps (self : MarioTrapAvoidance) (trap_count : Z) (rnd : nat → Z) :
    outcome (list (list Z)) :=
  let max_attempts := trap_count * 10 in
  do r <- place_traps_loop (Z.to_nat max_attempts) self rnd trap_count max_attempts
                           (zero_grid (grid_size self)) 0 0 0%nat;
  Done r.1.1.

(** The whole method; the result is the object after the call. *)
Definition initialize_grid (self : MarioTrapAvoidance) (trap_count : Z) (rnd : nat → Z) :
    outcome MarioTrapAvoidance :=
  do g1 <- place_traps self trap_count rnd;
  do g2 <- mark_dangerous self g1;
  Done (with_grid self g2).

(** ** The priority queue *)

Definition entry : Type := Z * coord.

(** Python's order on tuples [(f, (x, y))]. *)
Definition entry_leb (a b : entry) : bool :=
  (a.1 <? b.1) ||
  ((a.1 =? b.1) &&
   ((a.2.1 <? b.2.1) || ((a.2.1 =? b.2.1) && (a.2.2 <=? b.2.2)))).

Fixpoint heappush (h : list entry) (e : entry) : list entry :=
  match h with
  | [] => [e]
  | e' :: h' => if entry_leb e e' then e :: h else e' :: heappush h' e
  end.

(** ** [MarioTrapAvoidance.reconstruct_path] *)

Fixpoint reconstruct_loop (fuel : nat) (came_from : gmap coord coord)
    (current : coord) (path : list coord) : outcome (list coord) :=
  match came_from !! current with
  | None => Done path
  | Some prev =>
      match fuel with
      | O => OutOfFuel
      | S fuel' => reconstruct_loop fuel' came_from prev (path ++ [prev])
      end
  end.

Definition reconstruct_path (fuel : nat) (came_from : gmap coord coord)
    (current : coord) : outcome (list coord) :=
  do p <- reconstruct_loop fuel came_from current [current];
  Done (reverse p).

(** ** [MarioTrapAvoidance.a_star_search] *)

Record search_state : Type := mkState {
  open_set : list entry;
  came_from : gmap coord coord;
  g_score : gmap coord Z;        (* absent: inf *)
  f_score : gmap coord Z;        (* absent: inf *)
  explored : Z;
  pruned : Z;
  visited : gset coord
}.

Record search_result : Type := mkResult {
  path : list coord;
  res_visited : gset coord;
  stats_explored : Z;
  stats_pruned : Z;
  stats_path_length : Z
}.

(** State of the call just before the [while] loop. *)
Definition initial_state (self : MarioTrapAvoidance) : search_state :=
  {| open_set := heappush [] (0, start self);
     came_from := ∅;
     g_score := {[ start self := 0 ]};
     f_score := {[ start self := heuristic self (start self) ]};
     explored := 0;
     pruned := 0;
     visited := ∅ |}.

(** The body of [for neighbor in self.get_neighbors( *current)]. *)
Definition relax (self : MarioTrapAvoidance) (current : coord)
    (st : search_state) (neighbor : coord) : outcome search_state :=
  do safe <- is_safe_path self neighbor.1 neighbor.2;
  if negb safe then
    Done {| open_set := open_set st; came_from := came_from st;
            g_score := g_score st; f_score := f_score st;
            explored := explored st; pruned := pruned st + 1;
            visited := visited st |}
  else
    do c <- grid_get (grid self) neighbor.1 neighbor.2;
    let move_cost := if c =? DANGEROUS then 2 else 1 in
    match g_score st !! current with
    | None => Done st                      (* inf + move_cost < _ is false *)
    | Some gc =>
        let tentative_g_score := gc + move_cost in
        if match g_score st !! neighbor with
           | None => true
           | Some gn => tentative_g_score <? gn
           end
        then
          let f := tentative_g_score + heuristic self neighbor in
          Done {| open_set := heappush (open_set st) (f, neighbor);
                  came_from := <[neighbor := current]> (came_from st);
                  g_score := <[neighbor := tentative_g_score]> (g_score st);
                  f_score := <[neighbor := f]> (f_score st);
                  explored := explored st; pruned := pruned st;
                  visited := visited st |}
        else Done st
    end.

Inductive step_result : Type :=
  | Continue (st : search_state)
  | Return (r : search_result).

(** One iteration of [while open_set]; an empty heap leaves the loop and
    returns the no-path result. *)
Definition a_star_step (rfuel : nat) (self : MarioTrapAvoidance) (st : search_state) :
    outcome step_result :=
  match open_set st with
  | [] =>
      Done (Return {| path := []; res_visited := visited st;
                      stats_explored := explored st; stats_pruned := pruned st;
                      stats_path_length := 0 |})
  | (_, current) :: rest =>
      if bool_decide (current ∈ visited st) then
        Done (Continue {| open_set := rest; came_from := came_from st;
                          g_score := g_score st; f_score := f_score st;
                          explored := explored st; pruned := pruned st;
                          visited := visited st |})
      else
        let visited' := {[ current ]} ∪ visited st in
        let explored' := explored st + 1 in
        if bool_decide (current = goal self) then
          do p <- reconstruct_path rfuel (came_from st) current;
          Done (Return {| path := p; res_visited := visited';
                          stats_explored := explored'; stats_pruned := pruned st;
                          stats_path_length := Z.of_nat (length p) |})
        else
          do st' <- foldM (relax self current) (get_neighbors self current.1 current.2)
                      {| open_set := rest; came_from := came_from st;
                         g_score := g_score st; f_score := f_score st;
                         explored := explored'; pruned := pruned st;
                         visited := visited' |};
          Done (Continue st')
  end.

Fixpoint a_star_loop (fuel rfuel : nat) (self : MarioTrapAvoidance) (st : search_state) :
    outcome search_result :=
  match fuel with
  | O => OutOfFuel
  | S fuel' =>
      do sr <- a_star_step rfuel self st;
      match sr with
      | Continue st' => a_star_loop fuel' rfuel self st'
      | Return r => Done r
      end
  end.

(** The method returns its result; no statement of the method, nor of the
    methods it calls, assigns to [self] or to the lists it holds, so the
    object after the call, returned along with the result, is [self]. *)
Definition a_star_search (fuel : nat) (self : MarioTrapAvoidance) :
    outcome (search_result * MarioTrapAvoidance) :=
  do r <- a_star_loop fuel fuel self (initial_state self);
  Done (r, self).

(** ** [find_path] of [app.py]

    [grid] is [data.get('grid')]: [None] when the key is missing. *)

Inductive response : Type :=
  | BadRequest            (* jsonify({'error': 'Grid data required'}), 400 *)
  | Json (r : search_result).

Definition find_path (fuel : nat) (grid : option (list (list Z))) : outcome response :=
  match grid with
  | None => Done BadRequest
  | Some [] => Done BadRequest
  | Some g =>
      do game <- init (Z.of_nat (length g));
      do rs <- a_star_search fuel (with_grid game g);
      Done (Json rs.1)
  end.

(** ** [new_grid] of [app.py]

    [grid_size] and [trap_count] are [data.get('grid_size', 10)] and
    [data.get('trap_count', 15)]: [None] stands for a missing key. *)

Record grid_response : Type := mkGridResponse {
  resp_grid : list (list Z);
  resp_start : coord;
  resp_goal : coord
}.

Definition new_grid (size trap_count : option Z) (rnd : nat → Z) : outcome grid_response :=
  do game <- init (default 10 size);
  do game' <- initialize_grid game (default 15 trap_count) rnd;
  Done {| resp_grid := grid game'; resp_start := start game'; resp_goal := goal game' |}.

(** ** The methods as computations on the object

    The same methods once more, with the object threaded through every
    statement: a computation takes the object as it is before and returns
    its value together with the object as it is after.  [get] is a read of
    [self]; [put] is an assignment to [self] or to a list it holds.  The
    bodies below follow the source statement by statement, so that a write
    anywhere in a method would show in the object it returns. *)

Module Store.

Definition M (A : Type) : Type := MarioTrapAvoidance → outcome (A * MarioTrapAvoidance).

Definition ret {A} (a : A) : M A := fun self => Done (a, self).

Definition bind {A B} (m : M A) (k : A → M B) : M B :=
  fun self =>
    match m self with
    | Done (a, self') => k a self'
    | Raise e => Raise e
    | OutOfFuel => OutOfFuel
    end.

Definition get : M MarioTrapAvoidance := fun self => Done (self, self).

Definition put (self' : MarioTrapAvoidance) : M unit := fun _ => Done (tt, self').

(** A computation that does not involve the object. *)
Definition lift {A} (o : outcome A) : M A :=
  fun self => obind o (fun a => Done (a, self)).

Notation "'run' x <- m ; k" := (bind m (fun x => k))
  (at level 20, x pattern, m at level 100, k at level 200, only parsing).

Fixpoint for_each {A S} (f : S → A → M S) (l : list A) (s : S) : M S :=
  match l with
  | [] => ret s
  | a :: l' => run s' <- f s a; for_each f l' s'
  end.

(** [self.grid[y][x]] *)
Definition read_grid (x y : Z) : M Z :=
  run self <- get; lift (grid_get (grid self) x y).

(** [self.grid[y][x] = v]: the assignment of [initialize_grid]; no method
    reached from [a_star_search] contains one. *)
Definition write_grid (x y v : Z) : M unit :=
  run self <- get;
  run g <- lift (grid_set (grid self) x y v);
  put (with_grid self g).

(** [MarioTrapAvoidance.get_neighbors]: reads [self.grid_size]. *)
Definition get_neighbors (x y : Z) : M (list coord) :=
  run self <- get; ret (get_neighbors self x y).

(** [MarioTrapAvoidance.is_safe_path] *)
Definition is_safe_path (x y : Z) : M bool :=
  run c <- read_grid x y;
  if c =? TRAP then ret false
  else
    run neighbors <- get_neighbors x y;
    run dangerous_count <-
      for_each (fun (cnt : Z) (n : coord) =>
                  run v <- read_grid n.1 n.2;
                  ret (if (v =? DANGEROUS) || (v =? TRAP) then cnt + 1 else cnt))
               neighbors 0;
    if 3 <=? dangerous_count then ret false else ret true.

(** [MarioTrapAvoidance.heuristic]: reads [self.goal]. *)
Definition heuristic (pos : coord) : M Z :=
  run self <- get; ret (heuristic self pos).

(** [MarioTrapAvoidance.reconstruct_path]: works on its arguments alone. *)
Definition reconstruct_path (fuel : nat) (came_from : gmap coord coord)
    (current : coord) : M (list coord) :=
  lift (reconstruct_path fuel came_from current).

(** The body of [for neighbor in self.get_neighbors( *current)]. *)
Definition relax (current : coord) (st : search_state) (neighbor : coord) :
    M search_state :=
  run safe <- is_safe_path neighbor.1 neighbor.2;
  if negb safe then
    ret {| open_set := open_set st; came_from := came_from st;
           g_score := g_score st; f_score := f_score st;
           explored := explored st; pruned := pruned st + 1;
           visited := visited st |}
  else
    run c <- read_grid neighbor.1 neighbor.2;
    let move_cost := if c =? DANGEROUS then 2 else 1 in
    match g_score st !! current with
    | None => ret st
    | Some gc =>
        let tentative_g_score := gc + move_cost in
        if match g_score st !! neighbor with
           | None => true
           | Some gn => tentative_g_score <? gn
           end
        then
          run h <- heuristic neighbor;
          let f := tentative_g_score + h in
          ret {| open_set := heappush (open_set st) (f, neighbor);
                 came_from := <[neighbor := current]> (came_from st);
                 g_score := <[neighbor := tentative_g_score]> (g_score st);
                 f_score := <[neighbor := f]> (f_score st);
                 explored := explored st; pruned := pruned st;
                 visited := visited st |}
        else ret st
    end.

(** One iteration of [while open_set]. *)
Definition a_star_step (rfuel : nat) (st : search_state) : M step_result :=
  match open_set st with
  | [] =>
      ret (Return {| path := []; res_visited := visited st;
                     stats_explored := explored st; stats_pruned := pruned st;
                     stats_path_length := 0 |})
  | (_, current) :: rest =>
      if bool_decide (current ∈ visited st) then
        ret (Continue {| open_set := rest; came_from := came_from st;
                         g_score := g_score st; f_score := f_score st;
                         explored := explored st; pruned := pruned st;
                         visited := visited st |})
      else
        let visited' := {[ current ]} ∪ visited st in
        let explored' := explored st + 1 in
        run self <- get;
        if bool_decide (current = goal self) then
          run p <- reconstruct_path rfuel (came_from st) current;
          ret (Return {| path := p; res_visited := visited';
                         stats_explored := explored'; stats_pruned := pruned st;
                         stats_path_length := Z.of_nat (length p) |})
        else
          run neighbors <- get_neighbors current.1 current.2;
          run st' <- for_each (relax current) neighbors
                       {| open_set := rest; came_from := came_from st;
                          g_score := g_score st; f_score := f_score st;
                          explored := explored'; pruned := pruned st;
                          visited := visited' |};
          ret (Continue st')
  end.

Fixpoint a_star_loop (fuel rfuel : nat) (st : search_state) : M search_result :=
  match fuel with
  | O => fun _ => OutOfFuel
  | S fuel' =>
      run sr <- a_star_step rfuel st;
      match sr with
      | Continue st' => a_star_loop fuel' rfuel st'
      | Return r => ret r
      end
  end.

(** [MarioTrapAvoidance.a_star_search]: the result, and the object after
    the call. *)
Definition a_star_search (fuel : nat) : M search_result :=
  run self <- get;
  run h <- heuristic (start self);
  a_star_loop fuel fuel
    {| open_set := heappush [] (0, start self);
       came_from := ∅;
       g_score := {[ start self := 0 ]};
       f_score := {[ start self := h ]};
       explored := 0;
       pruned := 0;
       visited := ∅ |}.

(** A computation that leaves the object as it found it. *)
Definition readonly {A} (m : M A) : Prop :=
  ∀ self a self', m self = Done (a, self') → self' = self.

End Store.

(** * Vocabulary of the statements *)

(** The cell at [(x, y)], for coordinates inside the grid. *)
Definition cell (g : list (list Z)) (x y : Z) : Z :=
  match g !! Z.to_nat y with
  | Some row => default 0 (row !! Z.to_nat x)
  | None => 0
  end.

Definition set_cell (g : list (list Z)) (x y v : Z) : list (list Z) :=
  alter (fun row => <[Z.to_nat x := v]> row) (Z.to_nat y) g.

(** A grid of [n] rows of [n] cells. *)
Definition square (n : Z) (g : list (list Z)) : Prop :=
  length g = Z.to_nat n ∧ Forall (fun row => length row = Z.to_nat n) g.

Definition in_bounds (n : Z) (c : coord) : Prop :=
  0 <= c.1 < n ∧ 0 <= c.2 < n.

(** Whether every row is as long as the matrix has rows. *)
Definition is_square (g : list (list Z)) : bool :=
  forallb (fun row => Nat.eqb (length row) (length g)) g.

(** [h'] is [h] with some Empty cells next to a Trap turned Dangerous. *)
Definition grows (self : MarioTrapAvoidance) (h h' : list (list Z)) : Prop :=
  square (grid_size self) h' ∧
  ∀ c, in_bounds (grid_size self) c →
    cell h' c.1 c.2 = cell h c.1 c.2 ∨
    (cell h c.1 c.2 = EMPTY ∧ cell h' c.1 c.2 = DANGEROUS ∧
     ∃ t, in_bounds (grid_size self) t ∧ cell h t.1 t.2 = TRAP ∧
          c ∈ get_neighbors self t.1 t.2).

(** No Empty cell is left around [t] if [t] is a Trap. *)
Definition marked_around (self : MarioTrapAvoidance) (h : list (list Z)) (t : coord) : Prop :=
  cell h t.1 t.2 = TRAP → ∀ c, c ∈ get_neighbors self t.1 t.2 → cell h c.1 c.2 ≠ EMPTY.

Definition closed (self : MarioTrapAvoidance) (h : list (list Z)) : Prop :=
  ∀ t, in_bounds (grid_size self) t → marked_around self h t.

(** Number of Trap cells of a grid. *)
Definition count_row (row : list Z) : nat := length (filter (fun v => v = TRAP) row).

Definition count_traps (g : list (list Z)) : Z :=
  Z.of_nat (sum_list (count_row <$> g)).

(** What [random.randint(0, n - 1)] may return. *)
Definition rnd_ok (n : Z) (rnd : nat → Z) : Prop := ∀ k, 0 <= rnd k <= n - 1.

(** What the placement loop maintains. *)
Definition placement_inv (self : MarioTrapAvoidance) (trap_count : Z)
    (g : list (list Z)) (traps_placed : Z) : Prop :=
  square (grid_size self) g ∧
  count_traps g = traps_placed ∧
  traps_placed <= Z.max 0 trap_count ∧
  (in_bounds (grid_size self) (start self) → cell g (start self).1 (start self).2 ≠ TRAP) ∧
  (in_bounds (grid_size self) (goal self) → cell g (goal self).1 (goal self).2 ≠ TRAP) ∧
  (∀ c, in_bounds (grid_size self) c → cell g c.1 c.2 = EMPTY ∨ cell g c.1 c.2 = TRAP).

(** The safety predicate and the movement cost on a square grid. *)
Definition hazard (self : MarioTrapAvoidance) (c : coord) : bool :=
  (cell (grid self) c.1 c.2 =? DANGEROUS) || (cell (grid self) c.1 c.2 =? TRAP).

Definition hazard_count (self : MarioTrapAvoidance) (c : coord) : Z :=
  Z.of_nat (length (filter (fun d => hazard self d = true) (get_neighbors self c.1 c.2))).

Definition safeb (self : MarioTrapAvoidance) (c : coord) : bool :=
  negb (cell (grid self) c.1 c.2 =? TRAP) && negb (3 <=? hazard_count self c).

Definition move_cost (self : MarioTrapAvoidance) (c : coord) : Z :=
  if cell (grid self) c.1 c.2 =? DANGEROUS then 2 else 1.

(** [relax] once the reads of the grid are known to succeed. *)
Definition relax_pure (self : MarioTrapAvoidance) (current : coord)
    (st : search_state) (neighbor : coord) : search_state :=
  if negb (safeb self neighbor) then
    {| open_set := open_set st; came_from := came_from st;
       g_score := g_score st; f_score := f_score st;
       explored := explored st; pruned := pruned st + 1;
       visited := visited st |}
  else
    match g_score st !! current with
    | None => st
    | Some gc =>
        let t := gc + move_cost self neighbor in
        if match g_score st !! neighbor with
           | None => true
           | Some gn => t <? gn
           end
        then
          {| open_set := heappush (open_set st) (t + heuristic self neighbor, neighbor);
             came_from := <[neighbor := current]> (came_from st);
             g_score := <[neighbor := t]> (g_score st);
             f_score := <[neighbor := t + heuristic self neighbor]> (f_score st);
             explored := explored st; pruned := pruned st;
             visited := visited st |}
        else st
    end.

(** One move of a route: a 4-directional step into an in-bounds cell that
    passes the safety predicate. *)
Definition edge (self : MarioTrapAvoidance) (u v : coord) : Prop :=
  v ∈ get_neighbors self u.1 u.2 ∧ is_safe_path self v.1 v.2 = Done true.

(** [walk self u p]: the cells [p] can be entered one after the other,
    starting from [u]. *)
Fixpoint walk (self : MarioTrapAvoidance) (u : coord) (p : list coord) : Prop :=
  match p with
  | [] => True
  | v :: p' => edge self u v ∧ walk self v p'
  end.

Definition walk_cost (self : MarioTrapAvoidance) (p : list coord) : Z :=
  foldr (fun v acc => move_cost self v + acc) 0 p.

(** A path from start to goal whose every cell after the first is safe. *)
Definition route (self : MarioTrapAvoidance) (q : list coord) : Prop :=
  ∃ p, q = start self :: p ∧ walk self (start self) p ∧ last q = Some (goal self).

(** Total movement cost: the cost of entering every cell after the first. *)
Definition path_cost (self : MarioTrapAvoidance) (q : list coord) : Z :=
  walk_cost self (tail q).

(** The heap order seen through the priorities alone. *)
Definition prio_le (a b : entry) : Prop := a.1 <= b.1.

(** What the [while] loop of [a_star_search] maintains.  [ex u v] says for
    which moves [u -> v] out of a settled cell the relaxation has already
    been done; between two iterations it is all of them. *)
Record search_inv_gen (self : MarioTrapAvoidance) (ex : coord → coord → Prop)
    (st : search_state) : Prop := mkInv {
  inv_sorted : StronglySorted prio_le (open_set st);
  inv_start_g : g_score st !! start self = Some 0;
  inv_start_cf : came_from st !! start self = None;
  inv_g_nonneg : ∀ v gv, g_score st !! v = Some gv → 0 <= gv;
  inv_cf : ∀ v u, came_from st !! v = Some u →
    edge self u v ∧
    ∃ gu gv, g_score st !! u = Some gu ∧ g_score st !! v = Some gv ∧
             gu + move_cost self v <= gv;
  inv_g_cf : ∀ v gv, g_score st !! v = Some gv → v ≠ start self →
    is_Some (came_from st !! v);
  inv_settled : ∀ v, v ∈ visited st →
    ∃ gv, g_score st !! v = Some gv ∧
          ∀ p, walk self (start self) p → last (start self :: p) = Some v →
               gv <= walk_cost self p;
  inv_expanded : ∀ u v, u ∈ visited st → edge self u v → ex u v →
    ∃ gu gv, g_score st !! u = Some gu ∧ g_score st !! v = Some gv ∧
             gv <= gu + move_cost self v;
  inv_frontier : ∀ v gv, g_score st !! v = Some gv → v ∉ visited st →
    ∃ f, (f, v) ∈ open_set st ∧ f <= gv + heuristic self v;
  inv_entries : ∀ f v, (f, v) ∈ open_set st →
    v ∈ visited st ∨ v = start self ∨
    ∃ gv, g_score st !! v = Some gv ∧ gv + heuristic self v <= f;
  inv_goal : goal self ∉ visited st;
  inv_bounds : ∀ f v, (f, v) ∈ open_set st →
    v = start self ∨ in_bounds (grid_size self) v
}.

Definition search_inv (self : MarioTrapAvoidance) (st : search_state) : Prop :=
  search_inv_gen self (fun _ _ => True) st.

(** The state after a stale entry was popped, and after [current] was
    popped and marked visited. *)
Definition discard (st : search_state) (rest : list entry) : search_state :=
  {| open_set := rest; came_from := came_from st;
     g_score := g_score st; f_score := f_score st;
     explored := explored st; pruned := pruned st;
     visited := visited st |}.

Definition settle (st : search_state) (current : coord) (rest : list entry) : search_state :=
  {| open_set := rest; came_from := came_from st;
     g_score := g_score st; f_score := f_score st;
     explored := explored st + 1; pruned := pruned st;
     visited := {[ current ]} ∪ visited st |}.

(** All coordinates the search can ever pop: the cells of the grid, and
    start. *)
Definition cells (n : Z) : list coord :=
  flat_map (fun x => (fun y => (x, y)) <$> seqZ 0 n) (seqZ 0 n).

Definition universe (self : MarioTrapAvoidance) : gset coord :=
  {[ start self ]} ∪ list_to_set (cells (grid_size self)).

(** What is left to do: the entries of the heap, and four pushes for every
    coordinate not yet settled. *)
Definition measure (self : MarioTrapAvoidance) (st : search_state) : nat :=
  length (open_set st) + 4 * size (universe self ∖ visited st).

(** The result is the empty path when no route exists, and a cheapest
    route otherwise. *)
Definition search_post (self : MarioTrapAvoidance) (r : search_result) : Prop :=
  (path r = [] ∧ ∀ q, ¬ route self q) ∨
  (route self (path r) ∧ ∀ q, route self q → path_cost self (path r) <= path_cost self q).

(** Every key of [came_from] passed the safety predicate, and [explored]
    counts the visited coordinates. *)
Definition frame_inv (self : MarioTrapAvoidance) (st : search_state) : Prop :=
  explored st = Z.of_nat (size (visited st)) ∧
  ∀ v u, came_from st !! v = Some u → is_safe_path self v.1 v.2 = Done true.

Definition frame_post (self : MarioTrapAvoidance) (r : search_result) : Prop :=
  stats_explored r = Z.of_nat (size (res_visited r)) ∧
  stats_path_length r = Z.of_nat (length (path r)) ∧
  ∀ c rest, path r = c :: rest →
            Forall (fun v => is_safe_path self v.1 v.2 = Done true) rest.

(** Each element of the list is sent by [cf] to the next one. *)
Fixpoint linked (cf : gmap coord coord) (l : list coord) : Prop :=
  match l with
  | a :: (b :: _) as t => cf !! a = Some b ∧ linked cf t
  | _ => True
  end.

(** What the loop keeps on any grid about its counters and [came_from]. *)
Definition stats_inv (self : MarioTrapAvoidance) (st : search_state) : Prop :=
  0 <= pruned st <= 4 * explored st ∧
  (∀ v u, came_from st !! v = Some u → u ∈ visited st) ∧
  (start self ∈ visited st ∨
   (open_set st = [(0, start self)] ∧ visited st = ∅ ∧ explored st = 0)).

Definition stats_post (self : MarioTrapAvoidance) (r : search_result) : Prop :=
  0 <= stats_pruned r <= 4 * stats_explored r ∧
  start self ∈ res_visited r ∧
  (∀ c, c ∈ path r → c ∈ res_visited r) ∧
  (path r ≠ [] → last (path r) = Some (goal self)).

(** * Properties *)

(** ** Construction *)

(** C2 (as the code has it): for every size, also below 2, construction
    succeeds; the size is stored as given and the grid has [max size 0]
    rows of [max size 0] Empty cells.  Nothing raises [InvalidSizeError]. *)
Theorem init_total (size : Z) :
  ∃ game, init size = Done game ∧
          grid_size game = size ∧
          grid game = replicate (Z.to_nat size) (replicate (Z.to_nat size) EMPTY) ∧
          start game = (0, 0) ∧ goal game = (size - 1, size - 1).
Proof. unfold init, zero_grid. eexists. split; [reflexivity|]. simpl. auto. Qed.

(** C2 (as stated) fails: size 1 is below 2 and a 1x1 grid object is built. *)
Lemma init_size_1_succeeds :
  1 < 2 ∧
  init 1 = Done {| grid_size := 1; grid := [[0]]; start := (0, 0); goal := (0, 0) |} ∧
  init 1 ≠ Raise InvalidSizeError.
Proof. split; [lia|]. split; [reflexivity|discriminate]. Qed.

(** ** The request handler *)

(** C3 (as the code has it): a missing or empty matrix is answered with the
    400 response before any search; every non-empty matrix, square or not,
    is searched with size = number of rows. *)
Theorem find_path_rejects_missing_or_empty (fuel : nat) :
  find_path fuel None = Done BadRequest ∧
  find_path fuel (Some []) = Done BadRequest ∧
  ∀ g, g ≠ [] →
    find_path fuel (Some g) =
    obind (a_star_search fuel
             {| grid_size := Z.of_nat (length g); grid := g; start := (0, 0);
                goal := (Z.of_nat (length g) - 1, Z.of_nat (length g) - 1) |})
          (fun rs => Done (Json rs.1)).
Proof.
  split; [reflexivity|]. split; [reflexivity|].
  intros [|row g] Hg; [congruence|]. reflexivity.
Qed.

(** C3 (as stated) fails: a 2x3 matrix is not square, yet the search runs and
    a path comes back; on a ragged matrix the search reads out of bounds. *)
Lemma find_path_accepts_non_square :
  is_square [[0;0;0];[0;0;0]] = false ∧
  find_path 100 (Some [[0;0;0];[0;0;0]]) ≠ Done BadRequest ∧
  (∃ r, find_path 100 (Some [[0;0;0];[0;0;0]]) = Done (Json r) ∧
        path r = [(0, 0); (0, 1); (1, 1)]) ∧
  is_square [[0;0];[0]] = false ∧
  find_path 100 (Some [[0;0];[0]]) = Raise IndexError.
Proof.
  split; [reflexivity|]. split; [vm_compute; discriminate|].
  split; [eexists; split; [vm_compute; reflexivity|reflexivity]|].
  split; [reflexivity|]. vm_compute. reflexivity.
Qed.

(** ** The state before the loop *)

(** C7 (what the code does): the heap holds the single entry [(0, start)];
    [g_score[start] = 0] and [f_score[start] = h(start)]. *)
Theorem initial_state_frontier (self : MarioTrapAvoidance) :
  open_set (initial_state self) = [(0, start self)] ∧
  g_score (initial_state self) !! start self = Some 0 ∧
  f_score (initial_state self) !! start self = Some (heuristic self (start self)).
Proof.
  unfold initial_state; simpl. split; [reflexivity|].
  split; apply lookup_singleton_eq.
Qed.

(** C7 at the all-Empty 2x2 grid: the entry pushed has priority 0 while
    [h(start) = 2]. *)
Lemma initial_priority_is_zero_not_h :
  let self := {| grid_size := 2; grid := [[0;0];[0;0]]; start := (0, 0); goal := (1, 1) |} in
  open_set (initial_state self) = [(0, (0, 0))] ∧
  heuristic self (start self) = 2 ∧
  ¬ (∃ c, open_set (initial_state self) = [(heuristic self (start self), c)]).
Proof.
  simpl. split; [reflexivity|]. split; [reflexivity|].
  intros [c Hc]. vm_compute in Hc. discriminate.
Qed.

(** ** Reading and writing a square grid *)

Section Grid.
Context (n : Z).
Implicit Types (g : list (list Z)) (c : coord).

Lemma py_norm_in (len i : Z) : 0 <= i < len → py_norm len i = Some (Z.to_nat i).
Proof.
  intros Hi. unfold py_norm.
  destruct (i <? 0) eqn:E1; [lia|].
  destruct (0 <=? i) eqn:E2; [|lia].
  destruct (i <? len) eqn:E3; [reflexivity|lia].
Qed.

Lemma square_row g y :
  square n g → 0 <= y < n →
  ∃ row, g !! Z.to_nat y = Some row ∧ length row = Z.to_nat n.
Proof.
  intros [Hl Hr] Hy.
  destruct (lookup_lt_is_Some_2 g (Z.to_nat y)) as [row Hrow]; [lia|].
  exists row. split; [done|]. by eapply Forall_lookup_1 in Hr.
Qed.

Lemma grid_get_square g x y :
  square n g → in_bounds n (x, y) → grid_get g x y = Done (cell g x y).
Proof.
  intros Hsq [Hx Hy]; simpl in *.
  destruct (square_row g y Hsq Hy) as (row & Hrow & Hlen).
  unfold grid_get, py_getitem, cell.
  rewrite py_norm_in by (destruct Hsq; lia). rewrite Hrow. simpl.
  rewrite py_norm_in by lia.
  destruct (lookup_lt_is_Some_2 row (Z.to_nat x)) as [v Hv]; [lia|].
  by rewrite Hv.
Qed.

Lemma grid_set_square g x y v :
  square n g → in_bounds n (x, y) → grid_set g x y v = Done (set_cell g x y v).
Proof.
  intros Hsq [Hx Hy]; simpl in *.
  destruct (square_row g y Hsq Hy) as (row & Hrow & Hlen).
  unfold grid_set, py_getitem, py_setitem, set_cell.
  rewrite py_norm_in by (destruct Hsq; lia). rewrite Hrow. simpl.
  rewrite py_norm_in by lia. simpl.
  f_equal. apply list_eq. intros i.
  destruct (decide (i = Z.to_nat y)) as [->|Hne].
  - rewrite list_lookup_insert_eq, list_lookup_alter_eq, Hrow; [done|].
    destruct Hsq; lia.
  - by rewrite list_lookup_insert_ne, list_lookup_alter_ne.
Qed.

Lemma square_set_cell g x y v : square n g → square n (set_cell g x y v).
Proof.
  intros [Hl Hr]. unfold set_cell. split.
  - by rewrite length_alter.
  - apply Forall_alter; [done|]. intros row Hrow Hlen. by rewrite length_insert.
Qed.

Lemma cell_set_cell_eq g x y v :
  square n g → in_bounds n (x, y) → cell (set_cell g x y v) x y = v.
Proof.
  intros Hsq [Hx Hy]; simpl in *.
  destruct (square_row g y Hsq Hy) as (row & Hrow & Hlen).
  unfold cell, set_cell. rewrite list_lookup_alter_eq, Hrow. simpl.
  rewrite list_lookup_insert_eq by lia. done.
Qed.

Lemma cell_set_cell_ne g x y v x' y' :
  0 <= x → 0 <= y → 0 <= x' → 0 <= y' → (x, y) ≠ (x', y') →
  cell (set_cell g x y v) x' y' = cell g x' y'.
Proof.
  intros Hx Hy Hx' Hy' Hne. unfold cell, set_cell.
  destruct (decide (Z.to_nat y = Z.to_nat y')) as [Hy2|Hy2].
  - rewrite <- Hy2, list_lookup_alter_eq.
    destruct (g !! Z.to_nat y) as [row|]; simpl; [|done].
    rewrite list_lookup_insert_ne; [done|].
    intros Hx2. apply Hne. f_equal; lia.
  - by rewrite list_lookup_alter_ne.
Qed.

Lemma cell_set_cell g x y v x' y' :
  square n g → in_bounds n (x, y) → in_bounds n (x', y') →
  cell (set_cell g x y v) x' y' = if decide ((x, y) = (x', y')) then v else cell g x' y'.
Proof.
  intros Hsq Hb Hb'. destruct (decide _) as [Heq|Hne].
  - inversion Heq; subst. by apply cell_set_cell_eq.
  - destruct Hb, Hb'; simpl in *. apply cell_set_cell_ne; lia || done.
Qed.

Lemma square_zero_grid : square n (zero_grid n).
Proof.
  unfold square, zero_grid. split.
  - by rewrite length_replicate.
  - apply Forall_replicate. by rewrite length_replicate.
Qed.

Lemma cell_zero_grid x y : cell (zero_grid n) x y = 0.
Proof.
  unfold cell, zero_grid.
  destruct (replicate _ _ !! Z.to_nat y) as [row|] eqn:E; [|done].
  apply lookup_replicate in E as [-> _].
  destruct (replicate _ _ !! Z.to_nat x) as [v|] eqn:E; [|done].
  by apply lookup_replicate in E as [-> _].
Qed.
End Grid.

(** ** Neighbours *)

Lemma elem_of_get_neighbors (self : MarioTrapAvoidance) (x y : Z) (c : coord) :
  c ∈ get_neighbors self x y ↔
  in_bounds (grid_size self) c ∧
  (c = (x, y + 1) ∨ c = (x + 1, y) ∨ c = (x, y - 1) ∨ c = (x - 1, y)).
Proof.
  unfold get_neighbors, directions, in_bounds. simpl.
  rewrite !Z.add_0_r.
  replace (y + -1) with (y - 1) by lia. replace (x + -1) with (x - 1) by lia.
  assert (Hr : ∀ a b, in_range (grid_size self) a b = true ↔
                      (0 <= a < grid_size self ∧ 0 <= b < grid_size self)).
  { intros a b. unfold in_range. rewrite !andb_true_iff. lia. }
  destruct (in_range _ x (y + 1)) eqn:E1; destruct (in_range _ (x + 1) y) eqn:E2;
    destruct (in_range _ x (y - 1)) eqn:E3; destruct (in_range _ (x - 1) y) eqn:E4;
    simpl; rewrite ?elem_of_cons, ?elem_of_nil;
    try apply Hr in E1; try apply Hr in E2; try apply Hr in E3; try apply Hr in E4;
    (split; [intros H; repeat destruct H as [H|H]; subst; simpl; try tauto
            |intros [Hb H]; repeat destruct H as [H|H]; subst; simpl in *; try tauto]).
  all: try (apply not_true_iff_false in E1; rewrite Hr in E1; simpl in *; lia).
  all: try (apply not_true_iff_false in E2; rewrite Hr in E2; simpl in *; lia).
  all: try (apply not_true_iff_false in E3; rewrite Hr in E3; simpl in *; lia).
  all: try (apply not_true_iff_false in E4; rewrite Hr in E4; simpl in *; lia).
Qed.

Lemma get_neighbors_in_bounds (self : MarioTrapAvoidance) (x y : Z) (c : coord) :
  c ∈ get_neighbors self x y → in_bounds (grid_size self) c.
Proof. rewrite elem_of_get_neighbors. tauto. Qed.

Lemma get_neighbors_sym (self : MarioTrapAvoidance) (c d : coord) :
  in_bounds (grid_size self) c →
  d ∈ get_neighbors self c.1 c.2 → c ∈ get_neighbors self d.1 d.2.
Proof.
  destruct c as [x y], d as [x' y']. simpl.
  rewrite !elem_of_get_neighbors. intros Hc [Hd H]. split; [done|].
  repeat destruct H as [H|H]; inversion H; subst.
  - right; right; left. f_equal; lia.
  - right; right; right. f_equal; lia.
  - left. f_equal; lia.
  - right; left. f_equal; lia.
Qed.

(** ** Folding a fallible body over a list *)

Lemma foldM_prefix_inv {A S} (f : S → A → outcome S) (P : list A → S → Prop) (l : list A) :
  (∀ pre a s, P pre s → a ∈ l → ∃ s', f s a = Done s' ∧ P (pre ++ [a]) s') →
  ∀ pre s, P pre s → ∃ s', foldM f l s = Done s' ∧ P (pre ++ l) s'.
Proof.
  induction l as [|a l IH]; intros Hstep pre s HP.
  - exists s. rewrite app_nil_r. done.
  - destruct (Hstep pre a s HP) as (s1 & Hf & HP1); [left|].
    destruct (IH (fun pre a s HP Ha => Hstep pre a s HP (list_elem_of_further _ _ _ Ha))
                 (pre ++ [a]) s1 HP1) as (s2 & Hf2 & HP2).
    exists s2. simpl. rewrite Hf. simpl. rewrite <- app_assoc in HP2. done.
Qed.

Lemma foldM_inv {A S} (f : S → A → outcome S) (P : S → Prop) (l : list A) :
  (∀ a s, P s → a ∈ l → ∃ s', f s a = Done s' ∧ P s') →
  ∀ s, P s → ∃ s', foldM f l s = Done s' ∧ P s'.
Proof.
  intros Hstep s HP.
  apply (foldM_prefix_inv f (fun _ => P) l (fun _ => Hstep) [] s HP).
Qed.

Lemma foldM_fixed {A S} (f : S → A → outcome S) (l : list A) (s : S) :
  (∀ a, a ∈ l → f s a = Done s) → foldM f l s = Done s.
Proof.
  induction l as [|a l IH]; intros H; [done|].
  simpl. rewrite H by left. simpl. apply IH. intros b Hb. apply H. by right.
Qed.

(** ** Marking the dangerous zones *)

Section Marking.
Context (self : MarioTrapAvoidance).
Let n := grid_size self.
Implicit Types (h g : list (list Z)) (c t : coord).

Lemma grows_refl h : square n h → grows self h h.
Proof. intros Hsq. split; [done|]. intros c _. by left. Qed.

Lemma grows_trap h h' t :
  grows self h h' → in_bounds n t → (cell h' t.1 t.2 = TRAP ↔ cell h t.1 t.2 = TRAP).
Proof.
  intros [_ Hg] Ht. destruct (Hg t Ht) as [->|(H0 & H2 & _)]; [done|].
  rewrite H0, H2. unfold EMPTY, DANGEROUS, TRAP. lia.
Qed.

Lemma grows_nonempty h h' c :
  grows self h h' → in_bounds n c → cell h c.1 c.2 ≠ EMPTY → cell h' c.1 c.2 ≠ EMPTY.
Proof.
  intros [_ Hg] Hc Hne. destruct (Hg c Hc) as [->|(H0 & _)]; [done|]. done.
Qed.

Lemma grows_trans h1 h2 h3 : grows self h1 h2 → grows self h2 h3 → grows self h1 h3.
Proof.
  intros H12 H23. split; [apply H23|]. intros c Hc.
  destruct (proj2 H23 c Hc) as [E23|(H0 & H2 & t & Ht & Htrap & Hnb)].
  - rewrite E23. apply H12, Hc.
  - destruct (proj2 H12 c Hc) as [E12|(H0' & H2' & _)].
    + right. rewrite <- E12. split; [done|]. split; [done|].
      exists t. split; [done|]. split; [|done]. by apply (grows_trap h1 h2).
    + rewrite H2' in H0. discriminate.
Qed.

Lemma marked_around_grows h h' t :
  grows self h h' → in_bounds n t → marked_around self h t → marked_around self h' t.
Proof.
  intros Hg Ht Hm Htrap c Hc.
  apply (grows_nonempty h h'); [done|by eapply get_neighbors_in_bounds|].
  apply Hm; [|done]. by apply (grows_trap h h').
Qed.

Lemma mark_neighbor_spec h t c :
  square n h → in_bounds n t → cell h t.1 t.2 = TRAP → c ∈ get_neighbors self t.1 t.2 →
  ∃ h', mark_neighbor h c = Done h' ∧ grows self h h' ∧ cell h' c.1 c.2 ≠ EMPTY.
Proof.
  intros Hsq Ht Htrap Hc.
  assert (Hcb : in_bounds n c) by (by eapply get_neighbors_in_bounds).
  unfold mark_neighbor. destruct c as [x y]; simpl in *.
  rewrite (grid_get_square n) by done. simpl.
  destruct (cell h x y =? EMPTY) eqn:E.
  - apply Z.eqb_eq in E. rewrite (grid_set_square n) by done.
    eexists. split; [done|]. split.
    + split; [by apply square_set_cell|]. intros [x' y'] Hc'. simpl.
      rewrite (cell_set_cell n) by done.
      destruct (decide _) as [Heq|Hne]; [|by left].
      inversion Heq; subst. right. split; [done|]. split; [done|]. by exists t.
    + rewrite (cell_set_cell_eq n) by done. done.
  - apply Z.eqb_neq in E. exists h. split; [done|]. split; [by apply grows_refl|done].
Qed.

Lemma mark_around_spec h t :
  square n h → in_bounds n t →
  ∃ h', mark_around self h t = Done h' ∧ grows self h h' ∧ marked_around self h' t.
Proof.
  intros Hsq Ht. unfold mark_around.
  rewrite (grid_get_square n) by (by destruct t). simpl.
  destruct (cell h t.1 t.2 =? TRAP) eqn:E.
  - apply Z.eqb_eq in E.
    destruct (foldM_prefix_inv mark_neighbor
      (fun pre h' => grows self h h' ∧
                     ∀ c, c ∈ pre → in_bounds n c ∧ cell h' c.1 c.2 ≠ EMPTY)
      (get_neighbors self t.1 t.2)) with (pre := @nil coord) (s := h)
      as (h' & Hf & Hg & Hall).
    + intros pre c h1 [Hg1 Hpre] Hc.
      destruct (mark_neighbor_spec h1 t c) as (h2 & Hm & Hg2 & Hne);
        [apply Hg1|done|by apply (grows_trap h h1)|done|].
      exists h2. split; [done|]. split; [by eapply grows_trans|].
      intros c' [Hc'|Hc']%elem_of_app.
      * destruct (Hpre c' Hc') as [Hb Hn]. split; [done|].
        by apply (grows_nonempty h1 h2).
      * apply list_elem_of_singleton in Hc'. subst.
        split; [by eapply get_neighbors_in_bounds|done].
    + split; [by apply grows_refl|]. intros c Hc. by apply elem_of_nil in Hc.
    + exists h'. split; [done|]. split; [done|]. intros _ c Hc. by apply Hall.
  - exists h. split; [done|]. split; [by apply grows_refl|].
    intros Htrap. apply Z.eqb_neq in E. done.
Qed.

Lemma mark_around_fixed h t :
  square n h → in_bounds n t → marked_around self h t → mark_around self h t = Done h.
Proof.
  intros Hsq Ht Hm. unfold mark_around.
  rewrite (grid_get_square n) by (by destruct t). simpl.
  destruct (cell h t.1 t.2 =? TRAP) eqn:E; [|done].
  apply Z.eqb_eq in E. apply foldM_fixed. intros c Hc.
  unfold mark_neighbor.
  rewrite (grid_get_square n); [|done|]; cycle 1.
  { apply get_neighbors_in_bounds in Hc. by destruct c. }
  simpl. destruct (cell h c.1 c.2 =? EMPTY) eqn:E0; [|done].
  apply Z.eqb_eq in E0. by destruct (Hm E c Hc).
Qed.

Lemma in_bounds_seqZ (x y : Z) :
  x ∈ seqZ 0 n → y ∈ seqZ 0 n → in_bounds n (x, y).
Proof. rewrite !elem_of_seqZ. unfold in_bounds. simpl. lia. Qed.

Lemma mark_dangerous_spec g :
  square n g →
  ∃ g', mark_dangerous self g = Done g' ∧ grows self g g' ∧ closed self g'.
Proof.
  intros Hsq. unfold mark_dangerous. fold n.
  destruct (foldM_prefix_inv
    (fun h y => foldM (fun h x => mark_around self h (x, y)) (seqZ 0 n) h)
    (fun prey h => grows self g h ∧
                   ∀ t, in_bounds n t → t.2 ∈ prey → marked_around self h t)
    (seqZ 0 n)) with (pre := @nil Z) (s := g) as (g' & Hf & Hg & Hall).
  - intros prey y h [Hg Hrows] Hy.
    destruct (foldM_prefix_inv (fun h x => mark_around self h (x, y))
      (fun prex h' => grows self g h' ∧
         (∀ t, in_bounds n t → t.2 ∈ prey → marked_around self h' t) ∧
         (∀ t, in_bounds n t → t.2 = y → t.1 ∈ prex → marked_around self h' t))
      (seqZ 0 n)) with (pre := @nil Z) (s := h) as (h' & Hf' & Hg' & Hrows' & Hrow).
    + intros prex x h1 (Hg1 & Hrows1 & Hrow1) Hx.
      destruct (mark_around_spec h1 (x, y)) as (h2 & Hm & Hg2 & Hmk);
        [apply Hg1|by apply in_bounds_seqZ|].
      exists h2. split; [done|]. split; [by eapply grows_trans|]. split.
      * intros t Ht Hin. apply (marked_around_grows h1 h2); auto.
      * intros t Ht Hty [Hin|Hin]%elem_of_app.
        -- apply (marked_around_grows h1 h2); auto.
        -- apply list_elem_of_singleton in Hin. destruct t as [tx ty].
           simpl in *. by subst.
    + split; [done|]. split; [done|]. intros t _ _ Hin. by apply elem_of_nil in Hin.
    + exists h'. split; [done|]. split; [done|].
      intros t Ht [Hin|Hin]%elem_of_app; [by apply Hrows'|].
      apply list_elem_of_singleton in Hin. apply Hrow; [done|done|].
      simpl. apply elem_of_seqZ. destruct Ht. lia.
  - split; [by apply grows_refl|]. intros t _ Hin. by apply elem_of_nil in Hin.
  - exists g'. split; [done|]. split; [done|].
    intros t Ht. apply Hall; [done|]. simpl. apply elem_of_seqZ. destruct Ht. lia.
Qed.

Lemma mark_dangerous_fixed h :
  square n h → closed self h → mark_dangerous self h = Done h.
Proof.
  intros Hsq Hcl. unfold mark_dangerous. fold n.
  apply foldM_fixed. intros y Hy. apply foldM_fixed. intros x Hx.
  apply mark_around_fixed; [done|by apply in_bounds_seqZ|].
  apply Hcl. by apply in_bounds_seqZ.
Qed.
End Marking.

(** ** Placing the traps *)

Lemma count_row_insert (row : list Z) (i : nat) (v : Z) :
  row !! i = Some v → v ≠ TRAP → count_row (<[i := TRAP]> row) = S (count_row row).
Proof.
  intros Hi Hv. unfold count_row.
  rewrite insert_take_drop by (by eapply lookup_lt_Some).
  rewrite <- (take_drop_middle row i v Hi) at 3.
  rewrite !filter_app, !length_app, !filter_cons.
  destruct (decide (TRAP = TRAP)); [|done].
  destruct (decide (v = TRAP)); [done|]. simpl. lia.
Qed.

Lemma sum_count_alter (g : list (list Z)) (j : nat) (row : list Z) (F : list Z → list Z) :
  g !! j = Some row → count_row (F row) = S (count_row row) →
  sum_list (count_row <$> alter F j g) = S (sum_list (count_row <$> g)).
Proof.
  revert j. induction g as [|r g IH]; intros [|j] Hj HF; try done.
  - inversion Hj; subst. cbn. rewrite HF. cbn. done.
  - specialize (IH j Hj HF). cbn in *. lia.
Qed.

Lemma count_traps_set_cell (n : Z) (g : list (list Z)) (x y : Z) :
  square n g → in_bounds n (x, y) → cell g x y ≠ TRAP →
  count_traps (set_cell g x y TRAP) = count_traps g + 1.
Proof.
  intros Hsq [Hx Hy] Hc; simpl in *.
  destruct (square_row n g y Hsq Hy) as (row & Hrow & Hlen).
  destruct (lookup_lt_is_Some_2 row (Z.to_nat x)) as [v Hv]; [lia|].
  unfold count_traps, set_cell.
  rewrite (sum_count_alter g _ row) ; [lia|done|].
  apply (count_row_insert row _ v Hv).
  unfold cell in Hc. by rewrite Hrow, Hv in Hc.
Qed.

Lemma count_traps_zero_grid (n : Z) : count_traps (zero_grid n) = 0.
Proof.
  unfold count_traps, zero_grid.
  assert (H : ∀ k (row : list Z), count_row row = 0%nat →
                sum_list (count_row <$> replicate k row) = 0%nat).
  { induction k as [|k IH]; intros row Hr; simpl; [done|]. rewrite Hr, IH; done. }
  rewrite H; [done|].
  unfold count_row. induction (Z.to_nat n) as [|k IH]; simpl; [done|].
  rewrite filter_cons. destruct (decide (0 = TRAP)); [done|]. apply IH.
Qed.

Section Placement.
Context (self : MarioTrapAvoidance) (rnd : nat → Z) (trap_count max_attempts : Z).
Let n := grid_size self.
Hypothesis Hrnd : rnd_ok n rnd.
Hypothesis Hn : 1 <= n.

Lemma placement_inv_set g placed x y :
  placement_inv self trap_count g placed → placed < trap_count →
  in_bounds n (x, y) → (x, y) ≠ start self → (x, y) ≠ goal self →
  cell g x y ≠ TRAP →
  placement_inv self trap_count (set_cell g x y TRAP) (placed + 1).
Proof.
  intros (Hsq & Hcnt & Hle & Hs & Hg & H01) Hlt Hb Hns Hng Hc.
  split; [by apply square_set_cell|].
  split; [rewrite (count_traps_set_cell n) by done; lia|].
  split; [lia|].
  split; [|split].
  - intros Hsb. destruct (start self) as [sx sy].
    rewrite (cell_set_cell n) by done. destruct (decide _); [done|]. by apply Hs.
  - intros Hgb. destruct (goal self) as [gx gy].
    rewrite (cell_set_cell n) by done. destruct (decide _); [done|]. by apply Hg.
  - intros [cx cy] Hcb. simpl. rewrite (cell_set_cell n) by done.
    destruct (decide _); [by right|]. by apply (H01 (cx, cy)).
Qed.

(** With fuel for the attempts that remain, the loop ends normally and
    its exit condition holds. *)
Lemma place_traps_loop_spec fuel :
  ∀ g placed attempts calls,
    placement_inv self trap_count g placed →
    max_attempts - attempts <= Z.of_nat fuel →
    ∃ g' placed' attempts',
      place_traps_loop fuel self rnd trap_count max_attempts g placed attempts calls
        = Done (g', placed', attempts') ∧
      placement_inv self trap_count g' placed' ∧
      ¬ (placed' < trap_count ∧ attempts' < max_attempts).
Proof.
  induction fuel as [|fuel IH]; intros g placed attempts calls Hinv Hfuel.
  - exists g, placed, attempts. simpl.
    destruct (placed <? trap_count) eqn:E1; destruct (attempts <? max_attempts) eqn:E2;
      simpl; try (split; [done|split; [done|lia]]). lia.
  - simpl.
    destruct ((placed <? trap_count) && (attempts <? max_attempts)) eqn:E; cycle 1.
    { exists g, placed, attempts. split; [done|]. split; [done|].
      apply andb_false_iff in E. lia. }
    apply andb_true_iff in E as [E1 E2]. apply Z.ltb_lt in E1, E2.
    unfold randint. fold n.
    destruct (n - 1 <? 0) eqn:En; [lia|]. simpl.
    pose proof (Hrnd calls) as Hx. pose proof (Hrnd (S calls)) as Hy.
    assert (Hb : in_bounds n (rnd calls, rnd (S calls))) by (split; simpl; lia).
    destruct (bool_decide ((rnd calls, rnd (S calls)) ≠ start self)) eqn:Es;
      [destruct (bool_decide ((rnd calls, rnd (S calls)) ≠ goal self)) eqn:Eg|];
      simpl; try (apply IH; [done|lia]).
    apply bool_decide_eq_true in Es, Eg.
    rewrite (grid_get_square n) by (done || apply Hinv). simpl.
    destruct (cell g (rnd calls) (rnd (S calls)) =? TRAP) eqn:Ec; simpl.
    + apply IH; [done|lia].
    + apply Z.eqb_neq in Ec.
      rewrite (grid_set_square n) by (done || apply Hinv). simpl.
      apply IH; [by apply placement_inv_set|lia].
Qed.
End Placement.

Lemma placement_inv_zero (self : MarioTrapAvoidance) (trap_count : Z) :
  placement_inv self trap_count (zero_grid (grid_size self)) 0.
Proof.
  split; [apply square_zero_grid|]. split; [apply count_traps_zero_grid|].
  split; [lia|]. split; [|split]; intros; rewrite ?cell_zero_grid; try done. by left.
Qed.

Lemma place_traps_spec (self : MarioTrapAvoidance) (trap_count : Z) (rnd : nat → Z) :
  rnd_ok (grid_size self) rnd → 1 <= grid_size self →
  ∃ g placed, place_traps self trap_count rnd = Done g ∧
              placement_inv self trap_count g placed.
Proof.
  intros Hrnd Hn. unfold place_traps.
  destruct (place_traps_loop_spec self rnd trap_count (trap_count * 10) Hrnd Hn
              (Z.to_nat (trap_count * 10)) (zero_grid (grid_size self)) 0 0 0%nat)
    as (g & placed & attempts & Hl & Hinv & _).
  - apply placement_inv_zero.
  - lia.
  - exists g, placed. rewrite Hl. done.
Qed.

Lemma rnd_ok_size (n : Z) (rnd : nat → Z) : rnd_ok n rnd → 1 <= n.
Proof. intros H. specialize (H 0%nat). lia. Qed.

(** ** Grid generation *)

(** C6: for every size >= 2, every trap_count and every sequence of draws,
    the placement loop ends, and the grid it leaves has no Trap on the start
    cell (0,0), none on the goal cell (N-1,N-1), and at most trap_count Traps
    (none at all when trap_count is negative).  Start and goal are still not
    Traps after the dangerous zones are marked. *)
Theorem place_traps_spares_start_goal (size trap_count : Z) (rnd : nat → Z) :
  2 <= size → rnd_ok size rnd →
  ∃ self g self',
    init size = Done self ∧
    place_traps self trap_count rnd = Done g ∧
    cell g 0 0 ≠ TRAP ∧
    cell g (size - 1) (size - 1) ≠ TRAP ∧
    count_traps g <= Z.max 0 trap_count ∧
    (0 <= trap_count → count_traps g <= trap_count) ∧
    initialize_grid self trap_count rnd = Done self' ∧
    cell (grid self') 0 0 ≠ TRAP ∧
    cell (grid self') (size - 1) (size - 1) ≠ TRAP.
Proof.
  intros Hsize Hrnd.
  pose (self := {| grid_size := size; grid := zero_grid size;
                   start := (0, 0); goal := (size - 1, size - 1) |}).
  destruct (place_traps_spec self trap_count rnd) as (g & placed & Hp & Hinv);
    [done|simpl; lia|].
  destruct Hinv as (Hsq & Hcnt & Hle & Hs & Hg & _). simpl in *.
  assert (Hsb : in_bounds size (0, 0)) by (split; simpl; lia).
  assert (Hgb : in_bounds size (size - 1, size - 1)) by (split; simpl; lia).
  destruct (mark_dangerous_spec self g Hsq) as (g' & Hm & Hgr & _).
  exists self, g, (with_grid self g').
  split; [done|]. split; [done|]. split; [by apply Hs|]. split; [by apply Hg|].
  split; [lia|]. split; [lia|].
  split; [unfold initialize_grid; rewrite Hp; simpl; rewrite Hm; done|].
  simpl. split.
  - intros H. apply (grows_trap self g g' (0, 0)) in H; [|done|done]. by apply Hs.
  - intros H. apply (grows_trap self g g' (size - 1, size - 1)) in H; [|done|done].
    by apply Hg.
Qed.

Lemma place_traps_spares_start_goal_witness :
  ∃ self g self',
    init 3 = Done self ∧
    place_traps self 1 (fun _ => 1) = Done g ∧
    cell g 0 0 ≠ TRAP ∧
    cell g (3 - 1) (3 - 1) ≠ TRAP ∧
    count_traps g <= Z.max 0 1 ∧
    (0 <= 1 → count_traps g <= 1) ∧
    initialize_grid self 1 (fun _ => 1) = Done self' ∧
    cell (grid self') 0 0 ≠ TRAP ∧
    cell (grid self') (3 - 1) (3 - 1) ≠ TRAP.
Proof.
  apply (place_traps_spares_start_goal 3 1 (fun _ => 1)); [lia|].
  intros k. lia.
Defined.

(** C4: in every grid produced by trap placement followed by hazard
    derivation, a cell is Dangerous if and only if it is not a Trap and one
    of its in-bounds 4-directional neighbours is a Trap; every cell is Trap,
    Dangerous or Empty. *)
Theorem dangerous_iff_next_to_trap (self : MarioTrapAvoidance) (trap_count : Z)
    (rnd : nat → Z) :
  rnd_ok (grid_size self) rnd →
  ∃ self',
    initialize_grid self trap_count rnd = Done self' ∧
    ∀ c, in_bounds (grid_size self') c →
      (cell (grid self') c.1 c.2 = DANGEROUS ↔
       cell (grid self') c.1 c.2 ≠ TRAP ∧
       ∃ t, t ∈ get_neighbors self' c.1 c.2 ∧ cell (grid self') t.1 t.2 = TRAP) ∧
      (cell (grid self') c.1 c.2 = TRAP ∨ cell (grid self') c.1 c.2 = DANGEROUS ∨
       cell (grid self') c.1 c.2 = EMPTY).
Proof.
  intros Hrnd. pose proof (rnd_ok_size _ _ Hrnd) as Hn.
  destruct (place_traps_spec self trap_count rnd Hrnd Hn) as (g & placed & Hp & Hinv).
  destruct Hinv as (Hsq & _ & _ & _ & _ & H01).
  destruct (mark_dangerous_spec self g Hsq) as (g' & Hm & Hgr & Hcl).
  exists (with_grid self g').
  split; [unfold initialize_grid; rewrite Hp; simpl; rewrite Hm; done|].
  simpl. intros c Hc.
  assert (Hnb : ∀ x y, get_neighbors (with_grid self g') x y = get_neighbors self x y)
    by done.
  assert (Hv : cell g' c.1 c.2 = TRAP ∨ cell g' c.1 c.2 = DANGEROUS ∨
               cell g' c.1 c.2 = EMPTY).
  { destruct (proj2 Hgr c Hc) as [->|(_ & -> & _)]; [|tauto].
    destruct (H01 c Hc) as [->| ->]; tauto. }
  split; [|done]. split.
  - intros Hd. split; [rewrite Hd; done|].
    destruct (proj2 Hgr c Hc) as [E|(_ & _ & t & Ht & Htrap & Hnbr)].
    + rewrite E in Hd. destruct (H01 c Hc) as [H|H]; rewrite H in Hd; done.
    + exists t. rewrite Hnb. split; [by apply get_neighbors_sym|].
      by apply (grows_trap self g g').
  - intros [Hnt (t & Ht & Htrap)]. rewrite Hnb in Ht.
    assert (Htb : in_bounds (grid_size self) t) by (by eapply get_neighbors_in_bounds).
    assert (Hne : cell g' c.1 c.2 ≠ EMPTY).
    { apply (Hcl t Htb Htrap). by apply get_neighbors_sym. }
    destruct Hv as [?|[?|?]]; done.
Qed.

Lemma dangerous_iff_next_to_trap_witness :
  ∃ self',
    initialize_grid {| grid_size := 3; grid := zero_grid 3; start := (0, 0); goal := (2, 2) |}
                    1 (fun _ => 1) = Done self' ∧
    ∀ c, in_bounds (grid_size self') c →
      (cell (grid self') c.1 c.2 = DANGEROUS ↔
       cell (grid self') c.1 c.2 ≠ TRAP ∧
       ∃ t, t ∈ get_neighbors self' c.1 c.2 ∧ cell (grid self') t.1 t.2 = TRAP) ∧
      (cell (grid self') c.1 c.2 = TRAP ∨ cell (grid self') c.1 c.2 = DANGEROUS ∨
       cell (grid self') c.1 c.2 = EMPTY).
Proof.
  apply (dangerous_iff_next_to_trap
           {| grid_size := 3; grid := zero_grid 3; start := (0, 0); goal := (2, 2) |}
           1 (fun _ => 1)).
  intros k. simpl. lia.
Defined.

(** Scenario B: one Trap at the centre of a 3x3 grid makes its four
    neighbours Dangerous and leaves the corners Empty. *)
Example scenario_b_grid :
  initialize_grid {| grid_size := 3; grid := zero_grid 3; start := (0, 0); goal := (2, 2) |}
                  1 (fun _ => 1)
  = Done {| grid_size := 3; grid := [[0; 2; 0]; [2; 1; 2]; [0; 2; 0]];
            start := (0, 0); goal := (2, 2) |}.
Proof. reflexivity. Qed.

(** C5: hazard derivation is idempotent: on every (square) grid the marking
    pass succeeds, and running it again on its result returns that same
    grid. *)
Theorem mark_dangerous_idempotent (self : MarioTrapAvoidance) (g : list (list Z)) :
  square (grid_size self) g →
  ∃ g1, mark_dangerous self g = Done g1 ∧ mark_dangerous self g1 = Done g1.
Proof.
  intros Hsq. destruct (mark_dangerous_spec self g Hsq) as (g1 & Hm & Hgr & Hcl).
  exists g1. split; [done|]. apply mark_dangerous_fixed; [apply Hgr|done].
Qed.

Lemma mark_dangerous_idempotent_witness :
  ∃ g1, mark_dangerous {| grid_size := 3; grid := [[0; 0; 1]; [0; 0; 0]; [1; 0; 7]];
                          start := (0, 0); goal := (2, 2) |}
                       [[0; 0; 1]; [0; 0; 0]; [1; 0; 7]] = Done g1 ∧
        mark_dangerous {| grid_size := 3; grid := [[0; 0; 1]; [0; 0; 0]; [1; 0; 7]];
                          start := (0, 0); goal := (2, 2) |}
                       g1 = Done g1.
Proof.
  apply (mark_dangerous_idempotent
           {| grid_size := 3; grid := [[0; 0; 1]; [0; 0; 0]; [1; 0; 7]];
              start := (0, 0); goal := (2, 2) |}
           [[0; 0; 1]; [0; 0; 0]; [1; 0; 7]]).
  split; [reflexivity|]. repeat constructor.
Defined.

(** ** The search on a square grid *)

Lemma foldM_pure {A S} (f : S → A → outcome S) (f' : S → A → S) (l : list A) :
  ∀ s, (∀ s a, a ∈ l → f s a = Done (f' s a)) → foldM f l s = Done (foldl f' s l).
Proof.
  induction l as [|a l IH]; intros s H; [done|].
  simpl. rewrite H by left. simpl. apply IH. intros s' b Hb. apply H. by right.
Qed.

Section SquareReads.
Context (self : MarioTrapAvoidance).
Hypothesis Hsq : square (grid_size self) (grid self).

Lemma count_fold (l : list coord) :
  ∀ acc, Forall (in_bounds (grid_size self)) l →
    foldM (fun (cnt : Z) (d : coord) =>
             obind (grid_get (grid self) d.1 d.2)
                   (fun v => Done (if (v =? DANGEROUS) || (v =? TRAP) then cnt + 1 else cnt)))
          l acc
    = Done (acc + Z.of_nat (length (filter (fun d => hazard self d = true) l))).
Proof.
  induction l as [|d l IH]; intros acc Hall.
  - simpl. f_equal. lia.
  - inversion Hall as [|? ? Hd Hl]; subst. simpl.
    rewrite (grid_get_square (grid_size self)); [|done|by destruct d]. simpl.
    rewrite IH by done. f_equal. rewrite filter_cons.
    destruct (decide (hazard self d = true)) as [Hh|Hh]; unfold hazard in Hh;
      destruct ((cell (grid self) d.1 d.2 =? DANGEROUS) || (cell (grid self) d.1 d.2 =? TRAP));
      try done; simpl length; lia.
Qed.

Lemma is_safe_path_square (c : coord) :
  in_bounds (grid_size self) c → is_safe_path self c.1 c.2 = Done (safeb self c).
Proof.
  intros Hc. unfold is_safe_path, safeb.
  rewrite (grid_get_square (grid_size self)); [|done|by destruct c]. simpl.
  destruct (cell (grid self) c.1 c.2 =? TRAP); [done|].
  rewrite count_fold; cycle 1.
  { apply Forall_forall. intros d Hd. by eapply get_neighbors_in_bounds. }
  simpl. fold (hazard_count self c). rewrite Z.add_0_l.
  by destruct (3 <=? hazard_count self c).
Qed.

Lemma relax_square (current : coord) (st : search_state) (c : coord) :
  in_bounds (grid_size self) c →
  relax self current st c = Done (relax_pure self current st c).
Proof.
  intros Hc. unfold relax, relax_pure.
  rewrite is_safe_path_square by done. simpl.
  destruct (safeb self c); simpl; [|done].
  rewrite (grid_get_square (grid_size self)); [|done|by destruct c]. simpl.
  fold (move_cost self c).
  destruct (g_score st !! current) as [gc|]; [|done].
  by destruct (match g_score st !! c with Some gn => _ | None => _ end).
Qed.

Lemma expand_square (current : coord) (st : search_state) :
  foldM (relax self current) (get_neighbors self current.1 current.2) st
  = Done (foldl (relax_pure self current) st (get_neighbors self current.1 current.2)).
Proof.
  apply foldM_pure. intros s c Hc. apply relax_square.
  by eapply get_neighbors_in_bounds.
Qed.

Lemma edge_safeb (u v : coord) :
  edge self u v ↔ v ∈ get_neighbors self u.1 u.2 ∧ safeb self v = true.
Proof.
  unfold edge. split; intros [Hn Hs]; (split; [done|]).
  - rewrite is_safe_path_square in Hs by (by eapply get_neighbors_in_bounds).
    by inversion Hs.
  - rewrite is_safe_path_square by (by eapply get_neighbors_in_bounds). by f_equal.
Qed.
End SquareReads.

(** ** The heap *)

Lemma elem_of_heappush (h : list entry) (e x : entry) :
  x ∈ heappush h e ↔ x = e ∨ x ∈ h.
Proof.
  induction h as [|e' h IH]; simpl.
  - rewrite list_elem_of_singleton, elem_of_nil. tauto.
  - destruct (entry_leb e e'); rewrite !elem_of_cons; [tauto|].
    rewrite IH. tauto.
Qed.

Lemma length_heappush (h : list entry) (e : entry) :
  length (heappush h e) = S (length h).
Proof.
  induction h as [|e' h IH]; simpl; [done|].
  destruct (entry_leb e e'); simpl; [done|]. by rewrite IH.
Qed.

Lemma entry_leb_prio (a b : entry) : entry_leb a b = true → prio_le a b.
Proof.
  unfold entry_leb, prio_le. rewrite orb_true_iff, andb_true_iff. lia.
Qed.

Lemma entry_leb_false_prio (a b : entry) : entry_leb a b = false → prio_le b a.
Proof.
  unfold entry_leb, prio_le. rewrite orb_false_iff. intros [H _]. lia.
Qed.

Lemma entry_leb_iff (a b : entry) :
  entry_leb a b = true ↔
  a.1 < b.1 ∨ (a.1 = b.1 ∧ (a.2.1 < b.2.1 ∨ (a.2.1 = b.2.1 ∧ a.2.2 <= b.2.2))).
Proof.
  unfold entry_leb.
  rewrite !orb_true_iff, !andb_true_iff, !orb_true_iff, !andb_true_iff.
  rewrite !Z.ltb_lt, !Z.eqb_eq, Z.leb_le. done.
Qed.

(** The list kept for the heap is sorted for Python's order on tuples, so
    its head is the tuple [heappop] returns. *)
Lemma heappush_sorted (h : list entry) (e : entry) :
  StronglySorted (fun a b => entry_leb a b = true) h →
  StronglySorted (fun a b => entry_leb a b = true) (heappush h e).
Proof.
  induction 1 as [|e' h Hs IH Hall]; simpl.
  - constructor; constructor.
  - destruct (entry_leb e e') eqn:E.
    + constructor; [by constructor|]. constructor; [done|].
      eapply Forall_impl; [exact Hall|]. intros x Hx. simpl in Hx.
      apply entry_leb_iff in E, Hx. apply entry_leb_iff. lia.
    + constructor; [done|].
      apply Forall_forall. intros x [->|Hx]%elem_of_heappush.
      * apply not_true_iff_false in E. rewrite entry_leb_iff in E.
        apply entry_leb_iff. lia.
      * by eapply Forall_forall in Hall.
Qed.

Lemma sorted_heappush (h : list entry) (e : entry) :
  StronglySorted prio_le h → StronglySorted prio_le (heappush h e).
Proof.
  induction 1 as [|e' h Hs IH Hall]; simpl.
  - constructor; constructor.
  - destruct (entry_leb e e') eqn:E.
    + apply entry_leb_prio in E. constructor; [by constructor|].
      constructor; [done|]. eapply Forall_impl; [exact Hall|].
      intros x Hx. unfold prio_le in *. lia.
    + apply entry_leb_false_prio in E. constructor; [done|].
      apply Forall_forall. intros x [->|Hx]%elem_of_heappush; [done|].
      by eapply Forall_forall in Hall.
Qed.

Lemma sorted_head_least (e : entry) (h : list entry) (x : entry) :
  StronglySorted prio_le (e :: h) → x ∈ e :: h → e.1 <= x.1.
Proof.
  intros Hs Hx. inversion Hs as [|? ? _ Hall]; subst.
  apply elem_of_cons in Hx as [->|Hx]; [lia|].
  by eapply Forall_forall in Hall.
Qed.

(** ** Walks, their cost and the heuristic *)

Section Walks.
Context (self : MarioTrapAvoidance).
Implicit Types (u v w : coord) (p q : list coord).

Lemma move_cost_pos v : 1 <= move_cost self v.
Proof. unfold move_cost. destruct (_ =? _); lia. Qed.

Lemma walk_cost_cons v p : walk_cost self (v :: p) = move_cost self v + walk_cost self p.
Proof. reflexivity. Qed.

Lemma walk_cost_nonneg p : 0 <= walk_cost self p.
Proof.
  induction p as [|v p IH]; [done|]. rewrite walk_cost_cons.
  pose proof (move_cost_pos v). lia.
Qed.

Lemma walk_cost_app p q : walk_cost self (p ++ q) = walk_cost self p + walk_cost self q.
Proof.
  induction p as [|v p IH]; [done|].
  rewrite <- app_comm_cons, !walk_cost_cons, IH. lia.
Qed.

Lemma walk_app u p w q :
  walk self u p → last (u :: p) = Some w → walk self w q → walk self u (p ++ q).
Proof.
  revert u. induction p as [|v p IH]; intros u Hp Hl Hq; simpl in *.
  - by inversion Hl; subst.
  - destruct Hp as [He Hp]. split; [done|]. apply IH; try done.
Qed.

Lemma heuristic_step u v :
  v ∈ get_neighbors self u.1 u.2 → heuristic self u <= heuristic self v + 1.
Proof.
  rewrite elem_of_get_neighbors. intros [_ H]. unfold heuristic.
  destruct u as [x y]. simpl in *.
  repeat destruct H as [H|H]; subst; simpl; lia.
Qed.

(** The Manhattan distance is consistent with the movement costs. *)
Lemma heuristic_consistent u p w :
  walk self u p → last (u :: p) = Some w →
  heuristic self u <= walk_cost self p + heuristic self w.
Proof.
  revert u. induction p as [|v p IH]; intros u Hp Hl.
  - inversion Hl; subst. unfold walk_cost. simpl. lia.
  - destruct Hp as [[Hn _] Hp]. specialize (IH v Hp Hl).
    pose proof (heuristic_step u v Hn). pose proof (move_cost_pos v).
    rewrite walk_cost_cons. lia.
Qed.
End Walks.

Lemma reverse_last_head {A} (l : list A) (x : A) :
  last l = Some x → reverse l = x :: tail (reverse l).
Proof.
  destruct l as [|a l _] using rev_ind; [done|].
  rewrite last_snoc. intros [= ->]. by rewrite reverse_snoc.
Qed.

(** ** Consequences of the loop invariant *)

Section Invariant.
Context (self : MarioTrapAvoidance) (ex : coord → coord → Prop) (st : search_state).
Hypothesis Hinv : search_inv_gen self ex st.

(** Every recorded [g_score] is the cost of a walk from start, which is
    the one [reconstruct_path] follows backwards. *)
Lemma chain_walk (k : nat) :
  ∀ v gv, g_score st !! v = Some gv → gv <= Z.of_nat k →
    ∃ p, walk self (start self) p ∧ last (start self :: p) = Some v ∧
         walk_cost self p <= gv ∧
         ∀ fuel acc, (k ≤ fuel)%nat →
           reconstruct_loop fuel (came_from st) v acc
           = Done (acc ++ tail (reverse (start self :: p))).
Proof.
  assert (Hstart : ∀ v gv, v = start self → g_score st !! v = Some gv →
    ∃ p, walk self (start self) p ∧ last (start self :: p) = Some v ∧
         walk_cost self p <= gv ∧
         ∀ fuel acc, reconstruct_loop fuel (came_from st) v acc
                     = Done (acc ++ tail (reverse (start self :: p)))).
  { intros v gv -> Hg. exists []. split; [done|]. split; [done|].
    split; [apply (inv_g_nonneg _ _ _ Hinv _ _ Hg)|].
    intros fuel acc. rewrite app_nil_r.
    destruct fuel; simpl; by rewrite (inv_start_cf _ _ _ Hinv). }
  induction k as [|k IH]; intros v gv Hg Hk;
    destruct (decide (v = start self)) as [Hv|Hv].
  - destruct (Hstart v gv Hv Hg) as (p & ? & ? & ? & Hr). exists p. eauto.
  - destruct (inv_g_cf _ _ _ Hinv v gv Hg Hv) as [u Hu].
    destruct (inv_cf _ _ _ Hinv v u Hu) as (_ & gu & gv' & Hgu & Hgv' & Hle).
    pose proof (inv_g_nonneg _ _ _ Hinv _ _ Hgu). pose proof (move_cost_pos self v).
    rewrite Hg in Hgv'. inversion Hgv'; subst. lia.
  - destruct (Hstart v gv Hv Hg) as (p & ? & ? & ? & Hr). exists p. eauto.
  - destruct (inv_g_cf _ _ _ Hinv v gv Hg Hv) as [u Hu].
    destruct (inv_cf _ _ _ Hinv v u Hu) as (He & gu & gv' & Hgu & Hgv' & Hle).
    pose proof (move_cost_pos self v).
    rewrite Hg in Hgv'. inversion Hgv'; subst gv'.
    destruct (IH u gu Hgu) as (p & Hw & Hl & Hc & Hr); [lia|].
    exists (p ++ [v]).
    split; [apply (walk_app self _ p u); simpl; done|].
    split; [by rewrite app_comm_cons, last_snoc|].
    split; [rewrite walk_cost_app, walk_cost_cons; unfold walk_cost at 2; simpl; lia|].
    intros fuel acc Hfuel. destruct fuel as [|fuel]; [lia|]. simpl. rewrite Hu.
    rewrite Hr by lia. f_equal.
    rewrite app_comm_cons, reverse_snoc. simpl.
    rewrite (reverse_last_head (start self :: p) u Hl) at 2.
    by rewrite <- app_assoc.
Qed.

Lemma reached_by_walk v gv :
  g_score st !! v = Some gv →
  ∃ p, walk self (start self) p ∧ last (start self :: p) = Some v ∧
       walk_cost self p <= gv.
Proof.
  intros Hg. destruct (chain_walk (Z.to_nat gv) v gv Hg) as (p & ? & ? & ? & _); [lia|].
  by exists p.
Qed.
End Invariant.

Section Settling.
Context (self : MarioTrapAvoidance) (st : search_state).
Hypothesis Hinv : search_inv self st.

(** Along a walk that ends outside [visited], some cell of the frontier
    has an f-value no larger than the walk's. *)
Lemma frontier_cut p :
  ∀ v c u, walk self v p → last (v :: p) = Some u → (u ∉ visited st) →
    (∃ gv, g_score st !! v = Some gv ∧ gv <= c) →
    ∃ w gw, (w ∉ visited st) ∧ g_score st !! w = Some gw ∧
            gw + heuristic self w <= c + walk_cost self p + heuristic self u.
Proof.
  induction p as [|v' p IH]; intros v c u Hw Hl Hu (gv & Hg & Hle).
  - inversion Hl; subst. exists u, gv. unfold walk_cost. simpl.
    split; [done|]. split; [done|]. lia.
  - destruct (decide (v ∈ visited st)) as [Hv|Hv].
    + destruct Hw as [He Hw].
      destruct (inv_expanded _ _ _ Hinv v v' Hv He I)
        as (gu & gv' & Hgu & Hgv' & Hle').
      rewrite Hg in Hgu. inversion Hgu; subst gu.
      destruct (IH v' (c + move_cost self v') u Hw Hl Hu) as (w & gw & ? & ? & ?).
      { exists gv'. split; [done|]. lia. }
      exists w, gw. split; [done|]. split; [done|]. rewrite walk_cost_cons. lia.
    + exists v, gv. split; [done|]. split; [done|].
      pose proof (heuristic_consistent self v (v' :: p) u Hw Hl). lia.
Qed.

(** The cell popped from the heap carries its least cost. *)
Lemma popped_is_optimal f current rest :
  open_set st = (f, current) :: rest → current ∉ visited st →
  ∃ gc, g_score st !! current = Some gc ∧
        ∀ p, walk self (start self) p → last (start self :: p) = Some current →
             gc <= walk_cost self p.
Proof.
  intros Ho Hc.
  assert (Hin : (f, current) ∈ open_set st) by (rewrite Ho; left).
  destruct (inv_entries _ _ _ Hinv f current Hin) as [?|[->|(gc & Hg & Hle)]]; [done| |].
  - exists 0. split; [apply Hinv|]. intros p _ _. apply walk_cost_nonneg.
  - exists gc. split; [done|]. intros p Hw Hl.
    destruct (frontier_cut p (start self) 0 current Hw Hl Hc) as (w & gw & Hwv & Hgw & Hb).
    { exists 0. split; [apply Hinv|lia]. }
    destruct (inv_frontier _ _ _ Hinv w gw Hgw Hwv) as (fw & Hfw & Hfle).
    pose proof (inv_sorted _ _ _ Hinv) as Hs. rewrite Ho in Hs, Hfw.
    pose proof (sorted_head_least _ _ _ Hs Hfw) as Hmin. simpl in Hmin. lia.
Qed.
End Settling.

(** ** The loop body keeps the invariant *)

Lemma search_inv_change (self : MarioTrapAvoidance) (ex ex' : coord → coord → Prop)
    (st st' : search_state) :
  open_set st' = open_set st → came_from st' = came_from st →
  g_score st' = g_score st → visited st' = visited st →
  search_inv_gen self ex st →
  (∀ u v, u ∈ visited st → edge self u v → ex' u v →
     ex u v ∨ ∃ gu gv, g_score st !! u = Some gu ∧ g_score st !! v = Some gv ∧
                        gv <= gu + move_cost self v) →
  search_inv_gen self ex' st'.
Proof.
  intros Ho Hc Hg Hv [] Hex.
  constructor; rewrite ?Ho, ?Hc, ?Hg, ?Hv; try done.
  intros u v Hu He Hex'. destruct (Hex u v Hu He Hex') as [?|?]; auto.
Qed.

Lemma initial_state_inv (self : MarioTrapAvoidance) : search_inv self (initial_state self).
Proof.
  constructor; simpl.
  - repeat constructor.
  - apply lookup_singleton_eq.
  - apply lookup_empty.
  - intros v gv [_ <-]%lookup_singleton_Some. done.
  - intros v u H. by rewrite lookup_empty in H.
  - intros v gv [<- _]%lookup_singleton_Some. done.
  - intros v Hv. by apply not_elem_of_empty in Hv.
  - intros u v Hu. by apply not_elem_of_empty in Hu.
  - intros v gv [<- <-]%lookup_singleton_Some _. exists 0. split; [left|].
    unfold heuristic. lia.
  - intros f v [= -> ->]%list_elem_of_singleton. auto.
  - apply not_elem_of_empty.
  - intros f v [= -> ->]%list_elem_of_singleton. auto.
Qed.

Section Relax.
Context (self : MarioTrapAvoidance).
Hypothesis Hsq : square (grid_size self) (grid self).

Lemma relax_pure_visited current st c :
  visited (relax_pure self current st c) = visited st.
Proof.
  unfold relax_pure. destruct (negb _); [done|].
  destruct (g_score st !! current); [|done].
  by destruct (match g_score st !! c with Some gn => _ | None => _ end).
Qed.

Lemma relax_pure_inv current pre st c :
  search_inv_gen self (fun u v => u ≠ current ∨ v ∈ pre) st →
  current ∈ visited st → c ∈ get_neighbors self current.1 current.2 →
  search_inv_gen self (fun u v => u ≠ current ∨ v ∈ pre ++ [c])
                 (relax_pure self current st c).
Proof.
  intros Hinv Hcur Hc. unfold relax_pure.
  destruct (safeb self c) eqn:Hsafe; simpl.
  2: { eapply search_inv_change; [..|exact Hinv|]; try done.
       intros u v Hu He [Hne|[Hin|Hin%list_elem_of_singleton]%elem_of_app]; auto.
       subst v. apply edge_safeb in He as [_ He]; [|done]. congruence. }
  destruct (inv_settled _ _ _ Hinv current Hcur) as (gc & Hgc & _).
  rewrite Hgc.
  assert (Hedge : edge self current c) by (by apply edge_safeb).
  set (t := gc + move_cost self c).
  destruct (match g_score st !! c with Some gn => t <? gn | None => true end) eqn:Hupd.
  2: { (* the recorded cost of [c] is already at most [t] *)
       eapply search_inv_change; [..|exact Hinv|]; try done.
       intros u v Hu He [Hne|[Hin|Hin%list_elem_of_singleton]%elem_of_app]; auto.
       subst v. destruct (decide (u = current)) as [->|]; auto. right.
       destruct (g_score st !! c) as [gn|] eqn:Hgn; [|done].
       exists gc, gn. split; [done|]. split; [done|]. apply Z.ltb_ge in Hupd. done. }
  assert (Hlt : ∀ gn, g_score st !! c = Some gn → t < gn).
  { intros gn Hgn. rewrite Hgn in Hupd. by apply Z.ltb_lt. }
  pose proof (move_cost_pos self c) as Hcost.
  pose proof (inv_g_nonneg _ _ _ Hinv _ _ Hgc) as Hgc0.
  assert (Hcs : c ≠ start self).
  { intros ->. specialize (Hlt 0 (inv_start_g _ _ _ Hinv)). lia. }
  assert (Hcv : c ∉ visited st).
  { intros Hv. destruct (inv_settled _ _ _ Hinv c Hv) as (gn & Hgn & Hopt).
    destruct (reached_by_walk self _ st Hinv current gc Hgc) as (p & Hw & Hl & Hle).
    specialize (Hopt (p ++ [c])).
    rewrite walk_cost_app, walk_cost_cons in Hopt. unfold walk_cost at 2 in Hopt.
    simpl in Hopt. specialize (Hlt gn Hgn).
    assert (gn <= walk_cost self p + (move_cost self c + 0)); [|lia].
    apply Hopt; [apply (walk_app self _ p current); simpl; done|].
    by rewrite app_comm_cons, last_snoc. }
  assert (Hcc : c ≠ current) by (intros ->; done).
  destruct Hinv as [Hs Hsg Hsc Hnn Hcf Hgcf Hset Hexp Hfr Hen Hgo Hbd].
  constructor; simpl.
  - by apply sorted_heappush.
  - by rewrite lookup_insert_ne.
  - by rewrite lookup_insert_ne.
  - intros v gv [[<- <-]|[_ Hv]]%lookup_insert_Some; [lia|eauto].
  - intros v u [[<- <-]|[Hne Hv]]%lookup_insert_Some.
    + split; [done|]. exists gc, t.
      rewrite lookup_insert_ne by done. rewrite lookup_insert_eq. split; [done|].
      split; [done|]. lia.
    + destruct (Hcf v u Hv) as (He & gu & gv & Hgu & Hgv & Hle). split; [done|].
      destruct (decide (u = c)) as [->|Hu].
      * exists t, gv. rewrite lookup_insert_eq, lookup_insert_ne by done.
        split; [done|]. split; [done|]. specialize (Hlt gu Hgu). lia.
      * exists gu, gv. rewrite !lookup_insert_ne by done. done.
  - intros v gv [[<- <-]|[Hne Hv]]%lookup_insert_Some Hvs.
    + rewrite lookup_insert_eq. eauto.
    + rewrite lookup_insert_ne by done. eauto.
  - intros v Hv. destruct (Hset v Hv) as (gv & Hgv & Hopt).
    exists gv. split; [|done]. rewrite lookup_insert_ne; [done|]. by intros ->.
  - intros u v Hu He Hexuv.
    assert (Huc : u ≠ c) by (by intros ->).
    rewrite (lookup_insert_ne _ c u) by done.
    assert (Hold : (u ≠ current ∨ v ∈ pre) ∨ (u = current ∧ v = c)).
    { destruct Hexuv as [?|[?|Hvc%list_elem_of_singleton]%elem_of_app]; auto.
      subst v. destruct (decide (u = current)); auto. }
    destruct Hold as [Hold|[-> ->]].
    * destruct (Hexp u v Hu He Hold) as (gu & gv & Hgu & Hgv & Hle).
      destruct (decide (v = c)) as [->|Hvc].
      -- exists gu, t. rewrite lookup_insert_eq. split; [done|]. split; [done|].
         specialize (Hlt gv Hgv). lia.
      -- exists gu, gv. rewrite lookup_insert_ne by done. done.
    * exists gc, t. rewrite lookup_insert_eq. split; [done|]. split; [done|]. lia.
  - intros v gv [[<- <-]|[Hne Hv]]%lookup_insert_Some Hvis.
    + exists (t + heuristic self c). split; [|lia]. apply elem_of_heappush. auto.
    + destruct (Hfr v gv Hv Hvis) as (f & Hf & Hle). exists f. split; [|done].
      apply elem_of_heappush. auto.
  - intros f v [[= -> ->]|Hin]%elem_of_heappush.
    + right; right. exists t. rewrite lookup_insert_eq. split; [done|]. lia.
    + destruct (Hen f v Hin) as [?|[?|(gv & Hgv & Hle)]]; auto.
      right; right. destruct (decide (v = c)) as [->|Hvc].
      * exists t. rewrite lookup_insert_eq. split; [done|]. specialize (Hlt gv Hgv). lia.
      * exists gv. rewrite lookup_insert_ne by done. done.
  - done.
  - intros f v [[= -> ->]|Hin]%elem_of_heappush; [|eauto].
    right. by eapply get_neighbors_in_bounds.
Qed.
End Relax.

Lemma foldl_prefix_inv {A S} (f : S → A → S) (P : list A → S → Prop) (l : list A) :
  (∀ pre a s, P pre s → a ∈ l → P (pre ++ [a]) (f s a)) →
  ∀ pre s, P pre s → P (pre ++ l) (foldl f s l).
Proof.
  induction l as [|a l IH]; intros Hstep pre s HP.
  - by rewrite app_nil_r.
  - simpl. replace (pre ++ a :: l) with ((pre ++ [a]) ++ l) by (by rewrite <- app_assoc).
    apply IH.
    + intros pre' b s' HP' Hb. apply Hstep; [done|by right].
    + apply Hstep; [done|left].
Qed.

Section Step.
Context (self : MarioTrapAvoidance).
Hypothesis Hsq : square (grid_size self) (grid self).

Lemma a_star_step_square rfuel st :
  a_star_step rfuel self st =
  match open_set st with
  | [] => Done (Return {| path := []; res_visited := visited st;
                          stats_explored := explored st; stats_pruned := pruned st;
                          stats_path_length := 0 |})
  | (_, current) :: rest =>
      if bool_decide (current ∈ visited st) then Done (Continue (discard st rest))
      else if bool_decide (current = goal self) then
        obind (reconstruct_path rfuel (came_from st) current)
              (fun p => Done (Return {| path := p;
                                        res_visited := {[ current ]} ∪ visited st;
                                        stats_explored := explored st + 1;
                                        stats_pruned := pruned st;
                                        stats_path_length := Z.of_nat (length p) |}))
      else Done (Continue (foldl (relax_pure self current) (settle st current rest)
                                 (get_neighbors self current.1 current.2)))
  end.
Proof.
  unfold a_star_step. destruct (open_set st) as [|[f current] rest]; [done|].
  destruct (bool_decide (current ∈ visited st)); [done|].
  destruct (bool_decide (current = goal self)); [done|].
  fold (settle st current rest). by rewrite expand_square.
Qed.

Lemma discard_inv st f current rest :
  search_inv self st → open_set st = (f, current) :: rest → current ∈ visited st →
  search_inv self (discard st rest).
Proof.
  intros [Hs Hsg Hsc Hnn Hcf Hgcf Hset Hexp Hfr Hen Hgo Hbd] Ho Hcur.
  rewrite Ho in *. constructor; simpl; try done.
  - by inversion Hs.
  - intros v gv Hg Hv. destruct (Hfr v gv Hg Hv) as (f' & Hin & Hle).
    exists f'. split; [|done]. apply elem_of_cons in Hin as [[= -> ->]|Hin]; done.
  - intros f' v Hin. apply Hen. by right.
  - intros f' v Hin. apply (Hbd f'). by right.
Qed.

Lemma settle_inv st f current rest :
  search_inv self st → open_set st = (f, current) :: rest → current ∉ visited st →
  current ≠ goal self →
  search_inv_gen self (fun u v => u ≠ current ∨ v ∈ @nil coord) (settle st current rest).
Proof.
  intros Hinv Ho Hcur Hng.
  destruct (popped_is_optimal self st Hinv f current rest Ho Hcur) as (gc & Hgc & Hopt).
  destruct Hinv as [Hs Hsg Hsc Hnn Hcf Hgcf Hset Hexp Hfr Hen Hgo Hbd].
  rewrite Ho in *. constructor; simpl; try done.
  - by inversion Hs.
  - intros v [->%elem_of_singleton|Hv]%elem_of_union; [eauto|auto].
  - intros u v [->%elem_of_singleton|Hu]%elem_of_union He [Hne|Hin]; [done| |auto|].
    + by apply elem_of_nil in Hin.
    + by apply elem_of_nil in Hin.
  - intros v gv Hg Hv. apply not_elem_of_union in Hv as [Hvc%not_elem_of_singleton Hv].
    destruct (Hfr v gv Hg Hv) as (f' & Hin & Hle).
    exists f'. split; [|done]. apply elem_of_cons in Hin as [[= -> ->]|Hin]; done.
  - intros f' v Hin. destruct (Hen f' v) as [?|[?|?]]; [by right| | |]; auto.
    left. apply elem_of_union. auto.
  - apply not_elem_of_union. split; [|done]. apply not_elem_of_singleton. congruence.
  - intros f' v Hin. apply (Hbd f'). by right.
Qed.

Lemma expand_inv st current :
  search_inv_gen self (fun u v => u ≠ current ∨ v ∈ @nil coord) st →
  current ∈ visited st →
  search_inv self (foldl (relax_pure self current) st
                         (get_neighbors self current.1 current.2)).
Proof.
  intros Hinv Hcur.
  destruct (foldl_prefix_inv (relax_pure self current)
    (fun pre s => search_inv_gen self (fun u v => u ≠ current ∨ v ∈ pre) s ∧
                  current ∈ visited s)
    (get_neighbors self current.1 current.2)) with (pre := @nil coord) (s := st)
    as [Hfin _].
  - intros pre c s [Hi Hc] Hin. split; [by apply relax_pure_inv|].
    by rewrite relax_pure_visited.
  - done.
  - eapply search_inv_change; [..|exact Hfin|]; try done.
    intros u v Hu He _. left. destruct (decide (u = current)) as [->|]; auto.
    right. simpl. apply He.
Qed.

Lemma step_continue_inv rfuel st st' :
  search_inv self st → a_star_step rfuel self st = Done (Continue st') →
  search_inv self st'.
Proof.
  intros Hinv. rewrite a_star_step_square.
  destruct (open_set st) as [|[f current] rest] eqn:Ho; [done|].
  destruct (bool_decide (current ∈ visited st)) eqn:Hv.
  - apply bool_decide_eq_true in Hv. intros [= <-]. by eapply discard_inv.
  - apply bool_decide_eq_false in Hv.
    destruct (bool_decide (current = goal self)) eqn:Hg.
    + destruct (reconstruct_path _ _ _); simpl; done.
    + apply bool_decide_eq_false in Hg. intros [= <-].
      apply expand_inv; [by eapply settle_inv|]. simpl. apply elem_of_union. left.
      by apply elem_of_singleton.
Qed.
End Step.

(** ** More fuel does not change a result *)

Lemma reconstruct_loop_mono (cf : gmap coord coord) (fuel fuel' : nat) :
  ∀ v acc p, reconstruct_loop fuel cf v acc = Done p → (fuel ≤ fuel')%nat →
    reconstruct_loop fuel' cf v acc = Done p.
Proof.
  revert fuel'. induction fuel as [|fuel IH]; intros fuel' v acc p H Hle.
  - simpl in H. destruct fuel'; simpl; destruct (cf !! v); done.
  - destruct fuel' as [|fuel'']; [lia|]. simpl in *.
    destruct (cf !! v); [|done]. apply IH; [done|lia].
Qed.

Lemma a_star_step_mono (self : MarioTrapAvoidance) (rfuel rfuel' : nat)
    (st : search_state) (sr : step_result) :
  a_star_step rfuel self st = Done sr → (rfuel ≤ rfuel')%nat →
  a_star_step rfuel' self st = Done sr.
Proof.
  unfold a_star_step. intros H Hle.
  destruct (open_set st) as [|[f current] rest]; [done|].
  destruct (bool_decide (current ∈ visited st)); [done|].
  destruct (bool_decide (current = goal self)); [|done].
  unfold reconstruct_path in *.
  destruct (reconstruct_loop rfuel _ _ _) as [p| |] eqn:E; try done.
  by rewrite (reconstruct_loop_mono _ rfuel rfuel' _ _ p E Hle).
Qed.

Lemma a_star_loop_mono (self : MarioTrapAvoidance) (fuel : nat) :
  ∀ fuel' rfuel rfuel' st r,
    a_star_loop fuel rfuel self st = Done r → (fuel ≤ fuel')%nat → (rfuel ≤ rfuel')%nat →
    a_star_loop fuel' rfuel' self st = Done r.
Proof.
  induction fuel as [|fuel IH]; intros fuel' rfuel rfuel' st r H Hle Hle'; [done|].
  destruct fuel' as [|fuel'']; [lia|]. simpl in *.
  destruct (a_star_step rfuel self st) as [sr| |] eqn:E; try done.
  rewrite (a_star_step_mono self rfuel rfuel' st sr E Hle'). simpl in *.
  destruct sr as [st'|r']; [|done]. eapply IH; [exact H|lia|lia].
Qed.

(** ** Results, and the progress of the loop *)

Lemma elem_of_cells (n : Z) (c : coord) : c ∈ cells n ↔ in_bounds n c.
Proof.
  unfold cells, in_bounds. rewrite list_elem_of_In, in_flat_map. split.
  - intros (x & Hx & Hc). apply list_elem_of_In in Hx, Hc.
    apply list_elem_of_fmap in Hc as (y & -> & Hy).
    apply elem_of_seqZ in Hx, Hy. simpl. lia.
  - intros [Hx Hy]. exists c.1. split; apply list_elem_of_In.
    + apply elem_of_seqZ. lia.
    + apply list_elem_of_fmap. exists c.2. split; [by destruct c|].
      apply elem_of_seqZ. lia.
Qed.

Lemma length_get_neighbors (self : MarioTrapAvoidance) (x y : Z) :
  (length (get_neighbors self x y) ≤ 4)%nat.
Proof.
  unfold get_neighbors, directions. simpl.
  repeat (destruct (in_range _ _ _); simpl); lia.
Qed.

Lemma relax_pure_length (self : MarioTrapAvoidance) (current : coord)
    (st : search_state) (c : coord) :
  (length (open_set (relax_pure self current st c)) ≤ S (length (open_set st)))%nat.
Proof.
  unfold relax_pure. destruct (negb _); simpl; [lia|].
  destruct (g_score st !! current); [|lia].
  destruct (match g_score st !! c with Some gn => _ | None => _ end); simpl; [|lia].
  rewrite length_heappush. lia.
Qed.

Lemma expand_length (self : MarioTrapAvoidance) (current : coord) (l : list coord) :
  ∀ st, (length (open_set (foldl (relax_pure self current) st l))
         ≤ length (open_set st) + length l)%nat ∧
        visited (foldl (relax_pure self current) st l) = visited st.
Proof.
  induction l as [|c l IH]; intros st; simpl; [split; [lia|done]|].
  destruct (IH (relax_pure self current st c)) as [Hl Hv].
  pose proof (relax_pure_length self current st c).
  rewrite Hv, relax_pure_visited. split; [lia|done].
Qed.

Section Progress.
Context (self : MarioTrapAvoidance).
Hypothesis Hsq : square (grid_size self) (grid self).

Lemma step_decreases rfuel st st' :
  search_inv self st → a_star_step rfuel self st = Done (Continue st') →
  (measure self st' < measure self st)%nat.
Proof.
  intros Hinv. rewrite a_star_step_square by done. unfold measure.
  destruct (open_set st) as [|[f current] rest] eqn:Ho; [done|].
  destruct (bool_decide (current ∈ visited st)) eqn:Hv.
  - intros [= <-]. simpl. lia.
  - apply bool_decide_eq_false in Hv.
    destruct (bool_decide (current = goal self)) eqn:Hg.
    + destruct (reconstruct_path _ _ _); simpl; done.
    + intros [= <-].
      destruct (expand_length self current (get_neighbors self current.1 current.2)
                  (settle st current rest)) as [Hl Hvis].
      pose proof (length_get_neighbors self current.1 current.2) as H4.
      rewrite Hvis. simpl in *.
      assert (Hu : current ∈ universe self).
      { unfold universe. apply elem_of_union.
        destruct (inv_bounds _ _ _ Hinv f current) as [->|Hb]; [rewrite Ho; left| |].
        - left. by apply elem_of_singleton.
        - right. apply elem_of_list_to_set. by apply elem_of_cells. }
      assert (Hlt : (size (universe self ∖ ({[current]} ∪ visited st))
                     < size (universe self ∖ visited st))%nat).
      { apply subset_size. clear -Hu Hv. split.
        - apply difference_mono_l. apply union_subseteq_r.
        - intros Hsub. specialize (Hsub current).
          rewrite !elem_of_difference, elem_of_union, elem_of_singleton in Hsub.
          tauto. }
      lia.
Qed.

Lemma step_return_post rfuel st r :
  search_inv self st → a_star_step rfuel self st = Done (Return r) →
  search_post self r.
Proof.
  intros Hinv. rewrite a_star_step_square by done.
  destruct (open_set st) as [|[f current] rest] eqn:Ho.
  - intros [= <-]. left. split; [done|]. intros q (p & -> & Hw & Hl).
    destruct (frontier_cut self st Hinv p (start self) 0 (goal self) Hw Hl)
      as (w & gw & Hwv & Hgw & _); [apply Hinv| |].
    { exists 0. split; [apply Hinv|lia]. }
    destruct (inv_frontier _ _ _ Hinv w gw Hgw Hwv) as (fw & Hin & _).
    rewrite Ho in Hin. by apply elem_of_nil in Hin.
  - destruct (bool_decide (current ∈ visited st)) eqn:Hv; [done|].
    apply bool_decide_eq_false in Hv.
    destruct (bool_decide (current = goal self)) eqn:Hg; [|done].
    apply bool_decide_eq_true in Hg. subst current.
    destruct (popped_is_optimal self st Hinv f (goal self) rest Ho Hv) as (gc & Hgc & Hopt).
    destruct (chain_walk self _ st Hinv (Z.to_nat gc) (goal self) gc Hgc)
      as (p & Hw & Hl & Hle & Hrec); [pose proof (inv_g_nonneg _ _ _ Hinv _ _ Hgc); lia|].
    unfold reconstruct_path.
    destruct (reconstruct_loop rfuel _ _ _) as [p0| |] eqn:E; try done.
    apply (reconstruct_loop_mono _ rfuel (rfuel `max` Z.to_nat gc)) in E; [|lia].
    rewrite Hrec in E by lia. inversion E; subst p0. simpl.
    rewrite <- (reverse_last_head (start self :: p) (goal self) Hl), reverse_involutive.
    intros [= <-]. right. simpl. split.
    + exists p. done.
    + intros q (p' & -> & Hw' & Hl'). unfold path_cost. simpl.
      specialize (Hopt p' Hw' Hl'). lia.
Qed.

Lemma step_total st :
  search_inv self st →
  ∃ N, ∀ rfuel, (N ≤ rfuel)%nat → ∃ sr, a_star_step rfuel self st = Done sr.
Proof.
  intros Hinv.
  destruct (open_set st) as [|[f current] rest] eqn:Ho.
  { exists 0%nat. intros rfuel _. rewrite a_star_step_square, Ho by done. eauto. }
  destruct (decide (current ∈ visited st)) as [Hv|Hv].
  { exists 0%nat. intros rfuel _. rewrite a_star_step_square, Ho by done.
    rewrite bool_decide_eq_true_2 by done. eauto. }
  destruct (decide (current = goal self)) as [Hg|Hg]; cycle 1.
  { exists 0%nat. intros rfuel _. rewrite a_star_step_square, Ho by done.
    rewrite bool_decide_eq_false_2, bool_decide_eq_false_2 by done. eauto. }
  destruct (popped_is_optimal self st Hinv f current rest Ho Hv) as (gc & Hgc & _).
  destruct (chain_walk self _ st Hinv (Z.to_nat gc) current gc Hgc)
    as (p & _ & _ & _ & Hrec); [pose proof (inv_g_nonneg _ _ _ Hinv _ _ Hgc); lia|].
  exists (Z.to_nat gc). intros rfuel Hle. rewrite a_star_step_square, Ho by done.
  rewrite bool_decide_eq_false_2, bool_decide_eq_true_2 by done.
  unfold reconstruct_path. rewrite Hrec by done. simpl. eauto.
Qed.

(** From any state that satisfies the invariant the loop returns, given
    enough fuel, and what it returns is right. *)
Lemma loop_returns (m : nat) :
  ∀ st, search_inv self st → (measure self st < m)%nat →
    ∃ N r, a_star_loop N N self st = Done r ∧ search_post self r.
Proof.
  induction m as [|m IH]; intros st Hinv Hm; [lia|].
  destruct (step_total st Hinv) as (N0 & Hstep).
  destruct (Hstep N0) as ([st'|r] & Hsr); [lia| |].
  - destruct (IH st') as (N' & r & Hloop & Hpost).
    + by eapply step_continue_inv.
    + pose proof (step_decreases N0 st st' Hinv Hsr). lia.
    + exists (S (N' `max` N0)), r. split; [|done]. simpl.
      rewrite (a_star_step_mono self N0 _ st _ Hsr) by lia. simpl.
      eapply a_star_loop_mono; [exact Hloop|lia|lia].
  - exists (S N0), r. split; [|by eapply step_return_post]. simpl.
    rewrite (a_star_step_mono self N0 _ st _ Hsr) by lia. done.
Qed.

(** The whole call. *)
Lemma a_star_search_correct :
  ∃ N r, (∀ fuel, (N ≤ fuel)%nat → a_star_search fuel self = Done (r, self)) ∧
         search_post self r.
Proof.
  destruct (loop_returns (S (measure self (initial_state self))) (initial_state self))
    as (N & r & Hloop & Hpost); [apply initial_state_inv|lia|].
  exists N, r. split; [|done]. intros fuel Hle. unfold a_star_search.
  by rewrite (a_star_loop_mono self N fuel N fuel _ r Hloop Hle Hle).
Qed.
End Progress.

(** ** Facts that hold on every grid, square or not *)

Lemma foldM_inv_done {A S} (f : S → A → outcome S) (P : S → Prop) (l : list A) :
  (∀ s a s', P s → a ∈ l → f s a = Done s' → P s') →
  ∀ s s', P s → foldM f l s = Done s' → P s'.
Proof.
  induction l as [|a l IH]; intros Hstep s s' HP H; simpl in H.
  - by inversion H; subst.
  - destruct (f s a) as [s1| |] eqn:E; try done. simpl in H.
    eapply (IH (fun s a s' HP Ha => Hstep s a s' HP (list_elem_of_further _ _ _ Ha)));
      [|exact H].
    eapply Hstep; [exact HP|left|exact E].
Qed.

Lemma a_star_loop_inv (self : MarioTrapAvoidance) (rfuel : nat)
    (P : search_state → Prop) (Q : search_result → Prop) :
  (∀ st st', P st → a_star_step rfuel self st = Done (Continue st') → P st') →
  (∀ st r, P st → a_star_step rfuel self st = Done (Return r) → Q r) →
  ∀ fuel st r, P st → a_star_loop fuel rfuel self st = Done r → Q r.
Proof.
  intros Hc Hr. induction fuel as [|fuel IH]; intros st r HP H; [done|].
  simpl in H. destruct (a_star_step rfuel self st) as [[st'|r']| |] eqn:E; try done.
  - simpl in H. eapply IH; [|exact H]. by eapply Hc.
  - simpl in H. inversion H; subst. by eapply Hr.
Qed.

Lemma relax_frame (self : MarioTrapAvoidance) (current : coord)
    (st st' : search_state) (c : coord) :
  relax self current st c = Done st' →
  explored st' = explored st ∧ visited st' = visited st ∧
  ∀ v u, came_from st' !! v = Some u →
         came_from st !! v = Some u ∨ is_safe_path self v.1 v.2 = Done true.
Proof.
  unfold relax. destruct (is_safe_path self c.1 c.2) as [[|]| |] eqn:Hs; simpl; try done.
  - destruct (grid_get (grid self) c.1 c.2) as [w| |]; simpl; try done.
    destruct (g_score st !! current) as [gc|]; [|intros [= <-]; auto].
    destruct (match g_score st !! c with Some gn => _ | None => _ end);
      intros [= <-]; simpl; auto.
    split; [done|]. split; [done|].
    intros v u [[<- <-]|[_ Hv]]%lookup_insert_Some; auto.
  - intros [= <-]. simpl. auto.
Qed.

Lemma expand_frame (self : MarioTrapAvoidance) (current : coord) (l : list coord)
    (st st' : search_state) :
  current ∈ visited st → frame_inv self st →
  foldM (relax self current) l st = Done st' → frame_inv self st'.
Proof.
  intros Hcur Hinv H.
  apply (foldM_inv_done (relax self current)
           (fun s => frame_inv self s ∧ visited s = visited st) l) with (s := st) (s' := st');
    [|done|done].
  intros s c s1 [[He Hcf] Hv] _ Hr.
  destruct (relax_frame self current s s1 c Hr) as (He1 & Hv1 & Hcf1).
  split; [split|]; [congruence| |congruence].
  intros v u Hvu. destruct (Hcf1 v u Hvu) as [?|?]; eauto.
Qed.

Lemma reconstruct_loop_keys (cf : gmap coord coord) (fuel : nat) :
  ∀ v pre p, Forall (fun x => is_Some (cf !! x)) pre →
    reconstruct_loop fuel cf v (pre ++ [v]) = Done p →
    ∃ q l, p = q ++ [l] ∧ Forall (fun x => is_Some (cf !! x)) q.
Proof.
  induction fuel as [|fuel IH]; intros v pre p Hpre H; simpl in H.
  - destruct (cf !! v); [done|]. inversion H; subst. eauto.
  - destruct (cf !! v) as [u|] eqn:E.
    + apply (IH u (pre ++ [v]) p); [|done].
      apply Forall_app. split; [done|]. constructor; [by rewrite E|constructor].
    + inversion H; subst. eauto.
Qed.

Lemma initial_state_frame (self : MarioTrapAvoidance) : frame_inv self (initial_state self).
Proof.
  split; [reflexivity|]. simpl. intros v u H. by rewrite lookup_empty in H.
Qed.

Lemma step_continue_frame (self : MarioTrapAvoidance) (rfuel : nat)
    (st st' : search_state) :
  frame_inv self st → a_star_step rfuel self st = Done (Continue st') → frame_inv self st'.
Proof.
  intros [He Hcf]. unfold a_star_step.
  destruct (open_set st) as [|[f current] rest]; [done|].
  destruct (bool_decide (current ∈ visited st)) eqn:Hv; [by intros [= <-]|].
  apply bool_decide_eq_false in Hv.
  destruct (bool_decide (current = goal self)).
  { destruct (reconstruct_path _ _ _); done. }
  destruct (foldM _ _ _) as [s| |] eqn:E; simpl; try done. intros [= <-].
  eapply expand_frame; [| |exact E]; simpl.
  - apply elem_of_union. left. by apply elem_of_singleton.
  - split; simpl; [|done].
    rewrite size_union by (apply disjoint_singleton_l; done).
    rewrite size_singleton. lia.
Qed.

Lemma step_return_frame (self : MarioTrapAvoidance) (rfuel : nat)
    (st : search_state) (r : search_result) :
  frame_inv self st → a_star_step rfuel self st = Done (Return r) →
  frame_post self r.
Proof.
  intros [He Hcf]. unfold a_star_step, frame_post.
  destruct (open_set st) as [|[f current] rest]; [by intros [= <-]|].
  destruct (bool_decide (current ∈ visited st)) eqn:Hv; [done|].
  apply bool_decide_eq_false in Hv.
  destruct (bool_decide (current = goal self)); cycle 1.
  { destruct (foldM _ _ _); done. }
  unfold reconstruct_path.
  destruct (reconstruct_loop _ _ _ _) as [p| |] eqn:E; simpl; try done.
  intros [= <-]. simpl.
  split; [|split; [done|]].
  - rewrite size_union by (apply disjoint_singleton_l; done).
    rewrite size_singleton. lia.
  - destruct (reconstruct_loop_keys (came_from st) rfuel current [] p)
      as (q & l & -> & Hq); [constructor|done|].
    rewrite reverse_snoc. intros c rest' [= _ <-].
    apply Forall_reverse. eapply Forall_impl; [exact Hq|].
    intros v [u Hu]. eauto.
Qed.

Lemma a_star_search_frame (fuel : nat) (self self' : MarioTrapAvoidance)
    (r : search_result) :
  a_star_search fuel self = Done (r, self') → frame_post self r.
Proof.
  unfold a_star_search.
  destruct (a_star_loop fuel fuel self (initial_state self)) as [r0| |] eqn:E; try done.
  simpl. intros [= <- <-].
  apply (a_star_loop_inv self fuel (frame_inv self) (frame_post self)
           (step_continue_frame self fuel) (step_return_frame self fuel)
           fuel (initial_state self) r0 (initial_state_frame self) E).
Qed.


(** A push happens only for a cost strictly below the one recorded for
    the neighbour. *)
Lemma relax_push_decreases (self : MarioTrapAvoidance) (current : coord)
    (st st' : search_state) (c : coord) :
  relax self current st c = Done st' → open_set st' ≠ open_set st →
  ∃ t, g_score st' !! c = Some t ∧
       open_set st' = heappush (open_set st) (t + heuristic self c, c) ∧
       ∀ gn, g_score st !! c = Some gn → t < gn.
Proof.
  unfold relax. destruct (is_safe_path self c.1 c.2) as [[|]| |]; simpl; try done.
  - destruct (grid_get (grid self) c.1 c.2) as [w| |]; simpl; try done.
    destruct (g_score st !! current) as [gc|]; [|by intros [= <-]].
    destruct (g_score st !! c) as [gn|] eqn:Hgn.
    + destruct (Z.ltb_spec (gc + (if w =? DANGEROUS then 2 else 1)) gn);
        intros [= <-]; simpl; [|done]. intros _.
      eexists. rewrite lookup_insert_eq. split; [done|]. split; [done|].
      by intros ? [= <-].
    + intros [= <-]; simpl. intros _.
      eexists. rewrite lookup_insert_eq. split; [done|]. split; [done|]. done.
  - by intros [= <-].
Qed.

(** ** The search *)

(** C9: on every square grid of every size a_star_search returns a result
    once given enough fuel (the loop runs to completion); the number of
    settle operations it reports is the number of distinct visited
    coordinates, so each coordinate is settled at most once. *)
Theorem a_star_search_terminates (self : MarioTrapAvoidance) :
  square (grid_size self) (grid self) →
  ∃ N r, (∀ fuel, (N ≤ fuel)%nat → a_star_search fuel self = Done (r, self)) ∧
         stats_explored r = Z.of_nat (size (res_visited r)).
Proof.
  intros Hsq. destruct (a_star_search_correct self Hsq) as (N & r & Hrun & _).
  exists N, r. split; [done|].
  apply (a_star_search_frame N self self r). by apply Hrun.
Qed.

Lemma a_star_search_terminates_witness :
  ∃ N r, (∀ fuel, (N ≤ fuel)%nat →
            a_star_search fuel {| grid_size := 2; grid := [[0; 2]; [2; 1]];
                                  start := (0, 0); goal := (1, 1) |}
            = Done (r, {| grid_size := 2; grid := [[0; 2]; [2; 1]];
                          start := (0, 0); goal := (1, 1) |})) ∧
         stats_explored r = Z.of_nat (size (res_visited r)).
Proof.
  apply (a_star_search_terminates
           {| grid_size := 2; grid := [[0; 2]; [2; 1]]; start := (0, 0); goal := (1, 1) |}).
  split; [reflexivity|]. repeat constructor.
Defined.

(** C1: on every square grid on which some path from start to goal exists
    that moves by 4-directional steps through cells satisfying the safety
    predicate, a_star_search returns a non-empty path; that path is itself
    such a path, and no such path has a strictly lower total movement
    cost. *)
Theorem a_star_search_optimal (self : MarioTrapAvoidance) (q0 : list coord) :
  square (grid_size self) (grid self) → route self q0 →
  ∃ N r, (∀ fuel, (N ≤ fuel)%nat → a_star_search fuel self = Done (r, self)) ∧
         path r ≠ [] ∧
         route self (path r) ∧
         ∀ q, route self q → ¬ (path_cost self q < path_cost self (path r)).
Proof.
  intros Hsq Hq0. destruct (a_star_search_correct self Hsq) as (N & r & Hrun & Hpost).
  exists N, r. split; [done|].
  destruct Hpost as [[_ Hno]|[Hr Hopt]]; [by destruct (Hno q0)|].
  split; [|split; [done|]].
  - destruct Hr as (p & -> & _). done.
  - intros q Hq. specialize (Hopt q Hq). lia.
Qed.

Lemma a_star_search_optimal_witness :
  ∃ N r, (∀ fuel, (N ≤ fuel)%nat →
            a_star_search fuel {| grid_size := 2; grid := [[0; 2]; [0; 0]];
                                  start := (0, 0); goal := (1, 1) |}
            = Done (r, {| grid_size := 2; grid := [[0; 2]; [0; 0]];
                          start := (0, 0); goal := (1, 1) |})) ∧
         path r ≠ [] ∧
         route {| grid_size := 2; grid := [[0; 2]; [0; 0]];
                  start := (0, 0); goal := (1, 1) |} (path r) ∧
         ∀ q, route {| grid_size := 2; grid := [[0; 2]; [0; 0]];
                       start := (0, 0); goal := (1, 1) |} q →
              ¬ (path_cost {| grid_size := 2; grid := [[0; 2]; [0; 0]];
                              start := (0, 0); goal := (1, 1) |} q
                 < path_cost {| grid_size := 2; grid := [[0; 2]; [0; 0]];
                                start := (0, 0); goal := (1, 1) |} (path r)).
Proof.
  apply (a_star_search_optimal
           {| grid_size := 2; grid := [[0; 2]; [0; 0]]; start := (0, 0); goal := (1, 1) |}
           [(0, 0); (1, 0); (1, 1)]).
  - split; [reflexivity|]. repeat constructor.
  - exists [(1, 0); (1, 1)]. split; [reflexivity|]. split; [|reflexivity].
    simpl. unfold edge. simpl.
    split; [split; [|reflexivity]|split; [split; [|reflexivity]|exact I]].
    + apply list_elem_of_In. simpl. auto.
    + apply list_elem_of_In. simpl. auto.
Defined.

(** Scenario A: on the 2x2 grid without traps the path found costs 2,
    four cells are explored and nothing is pruned. *)
Example scenario_a :
  ∃ r, a_star_search 5 {| grid_size := 2; grid := [[0; 0]; [0; 0]];
                          start := (0, 0); goal := (1, 1) |}
       = Done (r, {| grid_size := 2; grid := [[0; 0]; [0; 0]];
                     start := (0, 0); goal := (1, 1) |}) ∧
       path r = [(0, 0); (0, 1); (1, 1)] ∧ stats_explored r = 4 ∧ stats_pruned r = 0.
Proof. eexists. split; [vm_compute; reflexivity|]. repeat split. Qed.

(** Scenario D: with size 1 start is the goal; the path is the start cell
    alone. *)
Example scenario_d :
  ∃ r, a_star_search 1 {| grid_size := 1; grid := [[0]]; start := (0, 0); goal := (0, 0) |}
       = Done (r, {| grid_size := 1; grid := [[0]]; start := (0, 0); goal := (0, 0) |}) ∧
       path r = [(0, 0)] ∧ stats_path_length r = 1 ∧ stats_explored r = 1.
Proof. eexists. split; [vm_compute; reflexivity|]. repeat split. Qed.


(** * Further properties of the engine *)

(** ** Neighbours and the heuristic *)

Lemma in_range_spec (n a b : Z) :
  in_range n a b = true ↔ 0 <= a < n ∧ 0 <= b < n.
Proof. unfold in_range. rewrite !andb_true_iff. lia. Qed.

(** X1: get_neighbors returns, without repetition, exactly the cells inside
    the grid at Manhattan distance 1 from (x, y). *)
Theorem get_neighbors_exact (self : MarioTrapAvoidance) (x y : Z) :
  NoDup (get_neighbors self x y) ∧
  ∀ c, c ∈ get_neighbors self x y ↔
       in_bounds (grid_size self) c ∧ Z.abs (c.1 - x) + Z.abs (c.2 - y) = 1.
Proof.
  split.
  - unfold get_neighbors, directions. simpl.
    repeat (destruct (in_range _ _ _); simpl);
      repeat (apply NoDup_cons; split; [rewrite ?elem_of_cons, elem_of_nil;
                                        intros H; repeat destruct H as [H|H];
                                        try done; inversion H; lia|]);
      apply NoDup_nil; done.
  - intros [a b]. rewrite elem_of_get_neighbors. simpl. split.
    + intros [Hb H]. split; [done|].
      repeat destruct H as [H|H]; inversion H; subst; lia.
    + intros [Hb H]. split; [done|].
      destruct (decide (a = x)) as [->|Ha].
      * destruct (decide (b = y + 1)) as [->|Hb1]; [auto|].
        right; right; left. f_equal. lia.
      * destruct (decide (a = x + 1)) as [->|Ha1].
        -- right; left. f_equal. lia.
        -- right; right; right. f_equal; lia.
Qed.

(** X2: on a grid of size at least 2, every cell of the grid has between 2
    and 4 neighbours. *)
Theorem get_neighbors_count (self : MarioTrapAvoidance) (x y : Z) :
  2 <= grid_size self → in_bounds (grid_size self) (x, y) →
  (2 ≤ length (get_neighbors self x y) ≤ 4)%nat.
Proof.
  intros Hn [Hx Hy]. simpl in *. unfold get_neighbors, directions. simpl.
  rewrite !Z.add_0_r.
  destruct (in_range _ x (y + 1)) eqn:E1; destruct (in_range _ (x + 1) y) eqn:E2;
    destruct (in_range _ x (y + -1)) eqn:E3; destruct (in_range _ (x + -1) y) eqn:E4;
    simpl; try lia;
    try (apply not_true_iff_false in E1; rewrite in_range_spec in E1);
    try (apply not_true_iff_false in E2; rewrite in_range_spec in E2);
    try (apply not_true_iff_false in E3; rewrite in_range_spec in E3);
    try (apply not_true_iff_false in E4; rewrite in_range_spec in E4);
    lia.
Qed.

Lemma get_neighbors_count_witness :
  (2 ≤ length (get_neighbors {| grid_size := 3; grid := zero_grid 3;
                                 start := (0, 0); goal := (2, 2) |}%Z 0%Z 2%Z) ≤ 4)%nat.
Proof.
  apply (get_neighbors_count
           {| grid_size := 3; grid := zero_grid 3; start := (0, 0); goal := (2, 2) |} 0 2).
  - simpl. lia.
  - split; simpl; lia.
Defined.

Lemma walk_length_bound (self : MarioTrapAvoidance) (p : list coord) :
  ∀ u w, walk self u p → last (u :: p) = Some w →
         heuristic self u <= Z.of_nat (length p) + heuristic self w.
Proof.
  induction p as [|v p IH]; intros u w Hp Hl.
  - inversion Hl; subst. simpl. lia.
  - destruct Hp as [[Hn _] Hp]. specialize (IH v w Hp Hl).
    pose proof (heuristic_step self u v Hn). simpl length. lia.
Qed.

(** X3: the Manhattan heuristic is admissible: it is zero exactly at the
    goal, and along any sequence of safe moves from a cell to the goal it
    never exceeds the number of moves nor their total cost. *)
Theorem heuristic_admissible (self : MarioTrapAvoidance) (u : coord) (p : list coord) :
  walk self u p → last (u :: p) = Some (goal self) →
  (heuristic self u = 0 ↔ u = goal self) ∧
  0 <= heuristic self u <= Z.of_nat (length p) ∧
  heuristic self u <= walk_cost self p.
Proof.
  intros Hw Hl.
  assert (Hg : heuristic self (goal self) = 0) by (unfold heuristic; lia).
  pose proof (walk_length_bound self p u _ Hw Hl).
  pose proof (heuristic_consistent self u p _ Hw Hl).
  split; [|split; [unfold heuristic in *; lia|lia]].
  split; [|by intros ->].
  unfold heuristic. destruct u as [a b], (goal self) as [ga gb]. simpl.
  intros Hzero. f_equal; lia.
Qed.

Lemma heuristic_admissible_witness :
  (heuristic {| grid_size := 2; grid := [[0; 0]; [0; 2]]; start := (0, 0); goal := (1, 1) |}
             (0, 0) = 0 ↔ (0, 0) = (1, 1)) ∧
  0 <= heuristic {| grid_size := 2; grid := [[0; 0]; [0; 2]];
                    start := (0, 0); goal := (1, 1) |} (0, 0)
    <= Z.of_nat (length [(1, 0); (1, 1)]) ∧
  heuristic {| grid_size := 2; grid := [[0; 0]; [0; 2]]; start := (0, 0); goal := (1, 1) |}
            (0, 0)
  <= walk_cost {| grid_size := 2; grid := [[0; 0]; [0; 2]];
                  start := (0, 0); goal := (1, 1) |} [(1, 0); (1, 1)].
Proof.
  apply (heuristic_admissible
           {| grid_size := 2; grid := [[0; 0]; [0; 2]]; start := (0, 0); goal := (1, 1) |}
           (0, 0) [(1, 0); (1, 1)]).
  - simpl. unfold edge. simpl.
    split; [split; [|reflexivity]|split; [split; [|reflexivity]|exact I]].
    + apply list_elem_of_In. simpl. auto.
    + apply list_elem_of_In. simpl. auto.
  - reflexivity.
Defined.

(** ** The safety predicate outside the grid *)

Lemma py_norm_ge (len i : Z) : 0 <= i → len <= i → py_norm len i = None.
Proof.
  intros H0 Hi. unfold py_norm.
  destruct (i <? 0) eqn:E1; [lia|].
  destruct (0 <=? i); [|done]. destruct (i <? len) eqn:E3; [lia|done].
Qed.

(** X4: on a square grid, is_safe_path called with non-negative coordinates
    of which one is beyond the grid raises IndexError. *)
Theorem is_safe_path_outside (self : MarioTrapAvoidance) (x y : Z) :
  square (grid_size self) (grid self) → 0 <= x → 0 <= y →
  grid_size self <= x ∨ grid_size self <= y →
  is_safe_path self x y = Raise IndexError.
Proof.
  intros Hsq Hx Hy Hout. unfold is_safe_path, grid_get.
  destruct (decide (grid_size self <= y)) as [Hy'|Hy'].
  - unfold py_getitem at 1. rewrite py_norm_ge; [done|done|]. destruct Hsq. lia.
  - destruct (square_row _ _ y Hsq) as (row & Hrow & Hlen); [lia|].
    unfold py_getitem at 1. rewrite py_norm_in by (destruct Hsq; lia).
    rewrite Hrow. simpl. unfold py_getitem. rewrite py_norm_ge; [done|done|lia].
Qed.

Lemma is_safe_path_outside_witness :
  is_safe_path {| grid_size := 2; grid := [[0; 0]; [0; 0]]; start := (0, 0); goal := (1, 1) |}
               2 1 = Raise IndexError.
Proof.
  apply (is_safe_path_outside
           {| grid_size := 2; grid := [[0; 0]; [0; 0]]; start := (0, 0); goal := (1, 1) |}
           2 1).
  - split; [reflexivity|]. repeat constructor.
  - lia.
  - lia.
  - simpl. lia.
Defined.

(** ** Path reconstruction on any predecessor map *)

Lemma reconstruct_loop_linked (cf : gmap coord coord) (fuel : nat) :
  ∀ v acc p, reconstruct_loop fuel cf v acc = Done p →
    ∃ more r, p = acc ++ more ∧ linked cf (v :: more) ∧
              last (v :: more) = Some r ∧ cf !! r = None.
Proof.
  induction fuel as [|fuel IH]; intros v acc p H; simpl in H.
  - destruct (cf !! v) eqn:E; [done|]. inversion H; subst.
    exists [], v. by rewrite app_nil_r.
  - destruct (cf !! v) as [u|] eqn:E.
    + destruct (IH u (acc ++ [u]) p H) as (more & r & -> & Hl & Hlast & Hr).
      exists (u :: more), r. rewrite <- app_assoc. simpl. done.
    + inversion H; subst. exists [], v. by rewrite app_nil_r.
Qed.

Lemma linked_middle (cf : gmap coord coord) (l l' : list coord) (a b : coord) :
  linked cf (l ++ a :: b :: l') → cf !! a = Some b.
Proof.
  induction l as [|x l IH]; simpl.
  - by intros [H _].
  - destruct (l ++ a :: b :: l') eqn:E; [by destruct l|]. intros [_ H]. by apply IH.
Qed.

Lemma linked_values (cf : gmap coord coord) (l : list coord) (v : coord) :
  linked cf (v :: l) → ∀ x, x ∈ l → ∃ k, cf !! k = Some x.
Proof.
  revert v. induction l as [|a l IH]; intros v Hl x Hx; [by apply elem_of_nil in Hx|].
  destruct Hl as [Hv Hl]. apply elem_of_cons in Hx as [->|Hx]; [eauto|].
  by apply (IH a).
Qed.

(** X5: whatever the predecessor map, a path returned by reconstruct_path
    ends at the cell it was asked for, begins at a cell without
    predecessor, and each of its cells is the recorded predecessor of the
    cell that follows it. *)
Theorem reconstruct_path_chain (fuel : nat) (cf : gmap coord coord)
    (current : coord) (p : list coord) :
  reconstruct_path fuel cf current = Done p →
  last p = Some current ∧
  (∃ r, head p = Some r ∧ cf !! r = None) ∧
  ∀ l1 a b l2, p = l1 ++ a :: b :: l2 → cf !! b = Some a.
Proof.
  unfold reconstruct_path.
  destruct (reconstruct_loop fuel cf current [current]) as [back| |] eqn:E; try done.
  simpl. intros [= <-].
  destruct (reconstruct_loop_linked cf fuel current [current] back E)
    as (more & r & -> & Hl & Hlast & Hr).
  change ([current] ++ more) with (current :: more).
  split; [by rewrite reverse_cons, last_snoc|]. split.
  - exists r. split; [|done].
    rewrite (reverse_last_head (current :: more) r Hlast). done.
  - intros l1 a b l2 Hp. apply (f_equal reverse) in Hp.
    rewrite reverse_involutive, reverse_app, !reverse_cons, <- !app_assoc in Hp.
    change (reverse l2 ++ [b] ++ [a] ++ reverse l1)
      with (reverse l2 ++ b :: a :: reverse l1) in Hp.
    rewrite Hp in Hl. by apply linked_middle in Hl.
Qed.

Lemma reconstruct_path_chain_witness :
  last [(0, 0); (0, 1); (1, 1)] = Some (1, 1) ∧
  (∃ r, head [(0, 0); (0, 1); (1, 1)] = Some r ∧
        ({[ (1, 1) := (0, 1); (0, 1) := (0, 0) ]} : gmap coord coord) !! r = None) ∧
  ∀ l1 a b l2, [(0, 0); (0, 1); (1, 1)] = l1 ++ a :: b :: l2 →
     ({[ (1, 1) := (0, 1); (0, 1) := (0, 0) ]} : gmap coord coord) !! b = Some a.
Proof.
  apply (reconstruct_path_chain 5 {[ (1, 1) := (0, 1); (0, 1) := (0, 0) ]} (1, 1)).
  vm_compute. reflexivity.
Defined.

(** X6: when every recorded predecessor has itself a predecessor (the map
    contains a cycle reachable from the cell), reconstruct_path never
    returns: no amount of fuel is enough. *)
Theorem reconstruct_path_cycle_diverges (cf : gmap coord coord) (current : coord) :
  (∀ k v, cf !! k = Some v → is_Some (cf !! v)) → is_Some (cf !! current) →
  ∀ fuel, reconstruct_path fuel cf current = OutOfFuel.
Proof.
  intros Hclosed Hc fuel. unfold reconstruct_path.
  assert (H : ∀ v acc, is_Some (cf !! v) → reconstruct_loop fuel cf v acc = OutOfFuel).
  { induction fuel as [|fuel IH]; intros v acc [u Hu]; simpl; rewrite Hu; [done|].
    apply IH. by eapply Hclosed. }
  by rewrite H.
Qed.

Lemma reconstruct_path_cycle_diverges_witness :
  reconstruct_path 7 {[ (0, 0) := (0, 1); (0, 1) := (0, 0) ]} (0, 1) = OutOfFuel.
Proof.
  generalize 7%nat.
  apply (reconstruct_path_cycle_diverges {[ (0, 0) := (0, 1); (0, 1) := (0, 0) ]} (0, 1)).
  - intros k v Hk.
    apply lookup_insert_Some in Hk as [[<- <-]|[_ Hk]].
    + rewrite lookup_insert_ne by done. rewrite lookup_singleton_eq. eauto.
    + apply lookup_singleton_Some in Hk as [<- <-].
      rewrite lookup_insert_eq. eauto.
  - rewrite lookup_insert_ne by done. rewrite lookup_singleton_eq. eauto.
Defined.

(** ** The counters and the visited set, on any grid *)

Lemma foldM_prefix_done {A S} (f : S → A → outcome S) (P : list A → S → Prop) (l : list A) :
  (∀ pre a s s', P pre s → f s a = Done s' → P (pre ++ [a]) s') →
  ∀ pre s s', P pre s → foldM f l s = Done s' → P (pre ++ l) s'.
Proof.
  intros Hstep. induction l as [|a l IH]; intros pre s s' HP H; simpl in H.
  - inversion H; subst. by rewrite app_nil_r.
  - destruct (f s a) as [s1| |] eqn:E; try done. simpl in H.
    replace (pre ++ a :: l) with ((pre ++ [a]) ++ l) by (by rewrite <- app_assoc).
    eapply IH; [|exact H]. by eapply Hstep.
Qed.

Lemma relax_stats (self : MarioTrapAvoidance) (current : coord)
    (st st' : search_state) (c : coord) :
  relax self current st c = Done st' →
  pruned st <= pruned st' <= pruned st + 1 ∧
  explored st' = explored st ∧ visited st' = visited st ∧
  ∀ v u, came_from st' !! v = Some u → came_from st !! v = Some u ∨ u = current.
Proof.
  unfold relax. destruct (is_safe_path self c.1 c.2) as [[|]| |]; simpl; try done.
  - destruct (grid_get (grid self) c.1 c.2) as [w| |]; simpl; try done.
    destruct (g_score st !! current) as [gc|]; [|intros [= <-]; split; [lia|auto]].
    destruct (match g_score st !! c with Some gn => _ | None => _ end);
      intros [= <-]; simpl; (split; [lia|]); auto.
    split; [done|]. split; [done|].
    intros v u [[<- <-]|[_ Hv]]%lookup_insert_Some; auto.
  - intros [= <-]. simpl. split; [lia|auto].
Qed.

Lemma expand_stats (self : MarioTrapAvoidance) (current : coord) (st st' : search_state) :
  foldM (relax self current) (get_neighbors self current.1 current.2) st = Done st' →
  pruned st <= pruned st' <= pruned st + 4 ∧
  explored st' = explored st ∧ visited st' = visited st ∧
  ∀ v u, came_from st' !! v = Some u → came_from st !! v = Some u ∨ u = current.
Proof.
  intros H.
  pose proof (length_get_neighbors self current.1 current.2) as H4.
  pose proof (foldM_prefix_done (relax self current)
    (fun pre s => pruned st <= pruned s <= pruned st + Z.of_nat (length pre) ∧
                  explored s = explored st ∧ visited s = visited st ∧
                  ∀ v u, came_from s !! v = Some u →
                         came_from st !! v = Some u ∨ u = current)
    (get_neighbors self current.1 current.2)) as Hf.
  destruct (Hf) with (pre := @nil coord) (s := st) (s' := st') as (Hp & He & Hv & Hc);
    [| |done|].
  - intros pre c s s' (Hp & He & Hv & Hc) Hr.
    destruct (relax_stats self current s s' c Hr) as (Hp' & He' & Hv' & Hc').
    rewrite length_app. simpl.
    split; [lia|]. split; [congruence|]. split; [congruence|].
    intros v u Hvu. destruct (Hc' v u Hvu); auto.
  - simpl. split; [lia|]. auto.
  - simpl in Hp. split; [lia|]. auto.
Qed.

Lemma initial_state_stats (self : MarioTrapAvoidance) : stats_inv self (initial_state self).
Proof.
  split; [simpl; lia|]. split.
  - simpl. intros v u H. by rewrite lookup_empty in H.
  - right. done.
Qed.

Lemma step_continue_stats (self : MarioTrapAvoidance) (rfuel : nat)
    (st st' : search_state) :
  stats_inv self st → a_star_step rfuel self st = Done (Continue st') → stats_inv self st'.
Proof.
  intros (Hp & Hcf & Hs). unfold a_star_step.
  destruct (open_set st) as [|[f current] rest] eqn:Ho; [done|].
  destruct (bool_decide (current ∈ visited st)) eqn:Hv.
  - apply bool_decide_eq_true in Hv. intros [= <-]. split; [done|]. split; [done|].
    left. destruct Hs as [?|(_ & He & _)]; [done|]. rewrite He in Hv.
    by apply not_elem_of_empty in Hv.
  - apply bool_decide_eq_false in Hv.
    destruct (bool_decide (current = goal self)).
    { destruct (reconstruct_path _ _ _); done. }
    destruct (foldM _ _ _) as [s| |] eqn:E; simpl; try done. intros [= <-].
    destruct (expand_stats self current _ s E) as (Hp' & He' & Hv' & Hc'). simpl in *.
    assert (Hexp : 0 <= explored st) by lia.
    split; [lia|]. split.
    + rewrite Hv'. intros v u Hvu. destruct (Hc' v u Hvu) as [H| ->].
      * apply elem_of_union. right. eauto.
      * apply elem_of_union. left. by apply elem_of_singleton.
    + left. rewrite Hv'. apply elem_of_union.
      destruct Hs as [?|(Hh & _)]; [by right|]. left.
      inversion Hh; subst. by apply elem_of_singleton.
Qed.

Lemma step_return_stats (self : MarioTrapAvoidance) (rfuel : nat)
    (st : search_state) (r : search_result) :
  stats_inv self st → a_star_step rfuel self st = Done (Return r) → stats_post self r.
Proof.
  intros (Hp & Hcf & Hs). unfold a_star_step, stats_post.
  destruct (open_set st) as [|[f current] rest] eqn:Ho.
  { intros [= <-]. simpl. split; [done|]. split.
    - destruct Hs as [?|(Hh & _)]; [done|done].
    - split; [|done]. intros c Hc. by apply elem_of_nil in Hc. }
  destruct (bool_decide (current ∈ visited st)) eqn:Hv; [done|].
  destruct (bool_decide (current = goal self)) eqn:Hg; cycle 1.
  { destruct (foldM _ _ _); done. }
  apply bool_decide_eq_true in Hg.
  unfold reconstruct_path.
  destruct (reconstruct_loop _ _ _ _) as [back| |] eqn:E; simpl; try done.
  intros [= <-]. simpl.
  destruct (reconstruct_loop_linked _ _ _ _ _ E) as (more & r0 & -> & Hl & _ & _).
  change ([current] ++ more) with (current :: more).
  split; [lia|]. split; [|split].
  - apply elem_of_union. destruct Hs as [?|(Hh & _)]; [by right|]. left.
    inversion Hh; subst. by apply elem_of_singleton.
  - intros c [->|Hc]%elem_of_reverse%elem_of_cons.
    + apply elem_of_union. left. by apply elem_of_singleton.
    + destruct (linked_values _ _ _ Hl c Hc) as [k Hk].
      apply elem_of_union. right. eauto.
  - intros _. rewrite last_reverse. simpl. by rewrite Hg.
Qed.

Lemma a_star_search_stats (fuel : nat) (self self' : MarioTrapAvoidance)
    (r : search_result) :
  a_star_search fuel self = Done (r, self') → stats_post self r.
Proof.
  unfold a_star_search.
  destruct (a_star_loop fuel fuel self (initial_state self)) as [r0| |] eqn:E; try done.
  simpl. intros [= <- <-].
  apply (a_star_loop_inv self fuel (stats_inv self) (stats_post self)
           (step_continue_stats self fuel) (step_return_stats self fuel)
           fuel (initial_state self) r0 (initial_state_stats self) E).
Qed.

(** X7: on any grid, whenever a_star_search returns, start has been
    settled (so at least one cell was explored), every cell of the returned
    path is in the visited set, a non-empty path ends at the goal, and
    path_length is the length of the path. *)
Theorem a_star_search_visited (fuel : nat) (self self' : MarioTrapAvoidance)
    (r : search_result) :
  a_star_search fuel self = Done (r, self') →
  start self ∈ res_visited r ∧
  1 <= stats_explored r ∧
  (∀ c, c ∈ path r → c ∈ res_visited r) ∧
  (path r ≠ [] → last (path r) = Some (goal self)) ∧
  stats_path_length r = Z.of_nat (length (path r)).
Proof.
  intros H. destruct (a_star_search_stats fuel self self' r H) as (_ & Hs & Hp & Hl).
  destruct (a_star_search_frame fuel self self' r H) as (He & Hlen & _).
  split; [done|]. split; [|done].
  rewrite He. destruct (size (res_visited r)) eqn:Hsz; [|lia].
  apply size_empty_iff in Hsz. apply Hsz in Hs. by apply not_elem_of_empty in Hs.
Qed.

Lemma a_star_search_visited_witness :
  start {| grid_size := 2; grid := [[0; 0]; [1; 0]]; start := (0, 0); goal := (1, 1) |}
    ∈ res_visited
       {| path := [(0, 0); (1, 0); (1, 1)];
          res_visited := list_to_set [(0, 0); (1, 0); (1, 1)];
          stats_explored := 3; stats_pruned := 1; stats_path_length := 3 |} ∧
  1 <= stats_explored
       {| path := [(0, 0); (1, 0); (1, 1)];
          res_visited := list_to_set [(0, 0); (1, 0); (1, 1)];
          stats_explored := 3; stats_pruned := 1; stats_path_length := 3 |} ∧
  (∀ c, c ∈ path
       {| path := [(0, 0); (1, 0); (1, 1)];
          res_visited := list_to_set [(0, 0); (1, 0); (1, 1)];
          stats_explored := 3; stats_pruned := 1; stats_path_length := 3 |} →
        c ∈ res_visited
       {| path := [(0, 0); (1, 0); (1, 1)];
          res_visited := list_to_set [(0, 0); (1, 0); (1, 1)];
          stats_explored := 3; stats_pruned := 1; stats_path_length := 3 |}) ∧
  (path
       {| path := [(0, 0); (1, 0); (1, 1)];
          res_visited := list_to_set [(0, 0); (1, 0); (1, 1)];
          stats_explored := 3; stats_pruned := 1; stats_path_length := 3 |} ≠ [] →
   last (path
       {| path := [(0, 0); (1, 0); (1, 1)];
          res_visited := list_to_set [(0, 0); (1, 0); (1, 1)];
          stats_explored := 3; stats_pruned := 1; stats_path_length := 3 |})
   = Some (goal {| grid_size := 2; grid := [[0; 0]; [1; 0]]; start := (0, 0); goal := (1, 1) |})) ∧
  stats_path_length
       {| path := [(0, 0); (1, 0); (1, 1)];
          res_visited := list_to_set [(0, 0); (1, 0); (1, 1)];
          stats_explored := 3; stats_pruned := 1; stats_path_length := 3 |}
  = Z.of_nat (length (path
       {| path := [(0, 0); (1, 0); (1, 1)];
          res_visited := list_to_set [(0, 0); (1, 0); (1, 1)];
          stats_explored := 3; stats_pruned := 1; stats_path_length := 3 |})).
Proof.
  apply (a_star_search_visited 6
           {| grid_size := 2; grid := [[0; 0]; [1; 0]]; start := (0, 0); goal := (1, 1) |}
           {| grid_size := 2; grid := [[0; 0]; [1; 0]]; start := (0, 0); goal := (1, 1) |}
           {| path := [(0, 0); (1, 0); (1, 1)];
          res_visited := list_to_set [(0, 0); (1, 0); (1, 1)];
          stats_explored := 3; stats_pruned := 1; stats_path_length := 3 |}).
  vm_compute. reflexivity.
Defined.

(** X8: on any grid, the pruned counter of a returned result is at most
    four times the explored counter, and never negative. *)
Theorem a_star_search_pruned_bound (fuel : nat) (self self' : MarioTrapAvoidance)
    (r : search_result) :
  a_star_search fuel self = Done (r, self') →
  0 <= stats_pruned r <= 4 * stats_explored r.
Proof.
  intros H. by destruct (a_star_search_stats fuel self self' r H) as (Hp & _).
Qed.

Lemma a_star_search_pruned_bound_witness :
  0 <= stats_pruned
       {| path := []; res_visited := list_to_set [(0, 0)];
          stats_explored := 1; stats_pruned := 2; stats_path_length := 0 |}
    <= 4 * stats_explored
       {| path := []; res_visited := list_to_set [(0, 0)];
          stats_explored := 1; stats_pruned := 2; stats_path_length := 0 |}.
Proof.
  apply (a_star_search_pruned_bound 6
           {| grid_size := 2; grid := [[0; 1]; [1; 0]]; start := (0, 0); goal := (1, 1) |}
           {| grid_size := 2; grid := [[0; 1]; [1; 0]]; start := (0, 0); goal := (1, 1) |}
           {| path := []; res_visited := list_to_set [(0, 0)];
          stats_explored := 1; stats_pruned := 2; stats_path_length := 0 |}).
  vm_compute. reflexivity.
Defined.

(** ** Results on a square grid, whatever the fuel *)

Lemma a_star_search_square (self self' : MarioTrapAvoidance) (fuel : nat)
    (Q : search_result → Prop) (r : search_result) :
  square (grid_size self) (grid self) →
  (∀ st r, search_inv self st → a_star_step fuel self st = Done (Return r) → Q r) →
  a_star_search fuel self = Done (r, self') → Q r.
Proof.
  intros Hsq HQ. unfold a_star_search.
  destruct (a_star_loop fuel fuel self (initial_state self)) as [r0| |] eqn:E; try done.
  simpl. intros [= <- <-].
  apply (a_star_loop_inv self fuel (search_inv self) Q
           (step_continue_inv self Hsq fuel) HQ
           fuel (initial_state self) r0 (initial_state_inv self) E).
Qed.

Lemma walk_all_safe (self : MarioTrapAvoidance) (p : list coord) :
  ∀ u, walk self u p → Forall (fun v => is_safe_path self v.1 v.2 = Done true) p.
Proof.
  induction p as [|v p IH]; intros u Hw; [constructor|].
  destruct Hw as [[_ Hs] Hw]. constructor; [done|]. by apply (IH v).
Qed.

(** X9: on a square grid on which no safe route leads from start to goal,
    a_star_search returns (it raises nothing) the empty path with
    path_length 0. *)
Theorem a_star_search_no_route (self : MarioTrapAvoidance) :
  square (grid_size self) (grid self) → (∀ q, ¬ route self q) →
  ∃ N r, (∀ fuel, (N ≤ fuel)%nat → a_star_search fuel self = Done (r, self)) ∧
         path r = [] ∧ stats_path_length r = 0.
Proof.
  intros Hsq Hno. destruct (a_star_search_correct self Hsq) as (N & r & Hrun & Hpost).
  exists N, r. split; [done|].
  destruct Hpost as [[Hp _]|[Hr _]]; [|by destruct (Hno (path r))].
  split; [done|].
  destruct (a_star_search_frame N self self r (Hrun N (le_n N))) as (_ & Hlen & _).
  by rewrite Hlen, Hp.
Qed.

Lemma a_star_search_no_route_witness :
  ∃ N r, (∀ fuel, (N ≤ fuel)%nat →
            a_star_search fuel {| grid_size := 2; grid := [[0; 1]; [1; 0]];
                                  start := (0, 0); goal := (1, 1) |}
            = Done (r, {| grid_size := 2; grid := [[0; 1]; [1; 0]];
                          start := (0, 0); goal := (1, 1) |})) ∧
         path r = [] ∧ stats_path_length r = 0.
Proof.
  apply (a_star_search_no_route
           {| grid_size := 2; grid := [[0; 1]; [1; 0]]; start := (0, 0); goal := (1, 1) |}).
  - split; [reflexivity|]. repeat constructor.
  - intros q (p & -> & Hw & Hl). destruct p as [|v p]; [discriminate Hl|].
    destruct Hw as [[Hin Hsafe] _]. apply list_elem_of_In in Hin. simpl in Hin.
    destruct Hin as [<-|[<-|[]]]; vm_compute in Hsafe; discriminate Hsafe.
Defined.

(** X10: on a square grid whose goal cell differs from start and fails the
    safety predicate, a_star_search returns the empty path. *)
Theorem a_star_search_unsafe_goal (self : MarioTrapAvoidance) :
  square (grid_size self) (grid self) → start self ≠ goal self →
  is_safe_path self (goal self).1 (goal self).2 ≠ Done true →
  ∃ N r, (∀ fuel, (N ≤ fuel)%nat → a_star_search fuel self = Done (r, self)) ∧
         path r = [].
Proof.
  intros Hsq Hne Hunsafe.
  destruct (a_star_search_correct self Hsq) as (N & r & Hrun & Hpost).
  exists N, r. split; [done|].
  destruct Hpost as [[Hp _]|[(p & Hq & Hw & Hl) _]]; [done|]. exfalso.
  rewrite Hq in Hl. destruct p as [|v p _] using rev_ind.
  - inversion Hl. done.
  - rewrite app_comm_cons, last_snoc in Hl. inversion Hl; subst v.
    apply walk_all_safe in Hw. apply Forall_app in Hw as [_ Hw].
    by inversion Hw.
Qed.

Lemma a_star_search_unsafe_goal_witness :
  ∃ N r, (∀ fuel, (N ≤ fuel)%nat →
            a_star_search fuel {| grid_size := 2; grid := [[0; 0]; [0; 1]];
                                  start := (0, 0); goal := (1, 1) |}
            = Done (r, {| grid_size := 2; grid := [[0; 0]; [0; 1]];
                          start := (0, 0); goal := (1, 1) |})) ∧
         path r = [].
Proof.
  apply (a_star_search_unsafe_goal
           {| grid_size := 2; grid := [[0; 0]; [0; 1]]; start := (0, 0); goal := (1, 1) |}).
  - split; [reflexivity|]. repeat constructor.
  - simpl. congruence.
  - vm_compute. discriminate.
Defined.

(** X11: on a square grid, a non-empty returned path has at least
    h(start) + 1 cells and costs at least h(start), h being the Manhattan
    distance to the goal. *)
Theorem a_star_search_path_length (fuel : nat) (self self' : MarioTrapAvoidance)
    (r : search_result) :
  square (grid_size self) (grid self) →
  a_star_search fuel self = Done (r, self') → path r ≠ [] →
  heuristic self (start self) + 1 <= stats_path_length r ∧
  heuristic self (start self) <= path_cost self (path r).
Proof.
  intros Hsq Hrun Hne.
  destruct (a_star_search_frame fuel self self' r Hrun) as (_ & Hlen & _).
  pose proof (a_star_search_square self self' fuel (search_post self) r Hsq
                (step_return_post self Hsq fuel) Hrun) as [[Hp _]|[(p & Hq & Hw & Hl) _]];
    [done|].
  assert (Hg : heuristic self (goal self) = 0) by (unfold heuristic; lia).
  rewrite Hq in Hl.
  pose proof (walk_length_bound self p _ _ Hw Hl).
  pose proof (heuristic_consistent self _ p _ Hw Hl).
  rewrite Hlen, Hq. unfold path_cost. simpl. lia.
Qed.

Lemma a_star_search_path_length_witness :
  heuristic {| grid_size := 2; grid := [[0; 0]; [0; 0]]; start := (0, 0); goal := (1, 1) |}
            (0, 0) + 1
  <= stats_path_length
       {| path := [(0, 0); (0, 1); (1, 1)];
          res_visited := list_to_set [(0, 0); (0, 1); (1, 0); (1, 1)];
          stats_explored := 4; stats_pruned := 0; stats_path_length := 3 |} ∧
  heuristic {| grid_size := 2; grid := [[0; 0]; [0; 0]]; start := (0, 0); goal := (1, 1) |}
            (0, 0)
  <= path_cost {| grid_size := 2; grid := [[0; 0]; [0; 0]]; start := (0, 0); goal := (1, 1) |}
               [(0, 0); (0, 1); (1, 1)].
Proof.
  apply (a_star_search_path_length 6
           {| grid_size := 2; grid := [[0; 0]; [0; 0]]; start := (0, 0); goal := (1, 1) |}
           {| grid_size := 2; grid := [[0; 0]; [0; 0]]; start := (0, 0); goal := (1, 1) |}
           {| path := [(0, 0); (0, 1); (1, 1)];
              res_visited := list_to_set [(0, 0); (0, 1); (1, 0); (1, 1)];
              stats_explored := 4; stats_pruned := 0; stats_path_length := 3 |}).
  - split; [reflexivity|]. repeat constructor.
  - vm_compute. reflexivity.
  - simpl. discriminate.
Defined.

Lemma chain_nodup (self : MarioTrapAvoidance) (ex : coord → coord → Prop)
    (st : search_state) (k : nat) :
  search_inv_gen self ex st →
  ∀ v gv fuel acc p,
    g_score st !! v = Some gv → gv <= Z.of_nat k →
    reconstruct_loop fuel (came_from st) v acc = Done p →
    ∃ more, p = acc ++ more ∧ NoDup (v :: more) ∧
            ∀ x, x ∈ more → ∃ gx, g_score st !! x = Some gx ∧ gx < gv.
Proof.
  intros Hinv. induction k as [|k IH]; intros v gv fuel acc p Hg Hk Hrec.
  all: destruct (decide (v = start self)) as [->|Hv];
    [exists []; rewrite app_nil_r;
     destruct fuel; simpl in Hrec; rewrite (inv_start_cf _ _ _ Hinv) in Hrec;
     inversion Hrec; subst;
     (split; [done|]; split; [apply NoDup_singleton|]; intros x Hx;
      by apply elem_of_nil in Hx)|].
  all: destruct (inv_g_cf _ _ _ Hinv v gv Hg Hv) as [u Hu];
    destruct (inv_cf _ _ _ Hinv v u Hu) as (_ & gu & gv' & Hgu & Hgv' & Hle);
    pose proof (inv_g_nonneg _ _ _ Hinv _ _ Hgu);
    pose proof (move_cost_pos self v);
    rewrite Hg in Hgv'; inversion Hgv'; subst gv'.
  - lia.
  - destruct fuel as [|fuel]; simpl in Hrec; rewrite Hu in Hrec; [done|].
    destruct (IH u gu fuel (acc ++ [u]) p Hgu) as (more & -> & Hnd & Hlt); [lia|done|].
    exists (u :: more). rewrite <- app_assoc. split; [done|].
    assert (Hall : ∀ x, x ∈ u :: more → ∃ gx, g_score st !! x = Some gx ∧ gx < gv).
    { intros x [->|Hx]%elem_of_cons; [exists gu; split; [done|lia]|].
      destruct (Hlt x Hx) as (gx & Hgx & ?). exists gx. split; [done|lia]. }
    split; [|done]. apply NoDup_cons. split; [|done].
    intros Hin. destruct (Hall v Hin) as (gx & Hgx & ?).
    rewrite Hg in Hgx. inversion Hgx. lia.
Qed.

Lemma step_return_nodup (self : MarioTrapAvoidance) (rfuel : nat)
    (st : search_state) (r : search_result) :
  search_inv self st → a_star_step rfuel self st = Done (Return r) → NoDup (path r).
Proof.
  intros Hinv. unfold a_star_step.
  destruct (open_set st) as [|[f current] rest] eqn:Ho.
  { intros [= <-]. apply NoDup_nil. done. }
  destruct (bool_decide (current ∈ visited st)) eqn:Hv; [done|].
  apply bool_decide_eq_false in Hv.
  destruct (bool_decide (current = goal self)); cycle 1.
  { destruct (foldM _ _ _); done. }
  destruct (popped_is_optimal self st Hinv f current rest Ho Hv) as (gc & Hgc & _).
  unfold reconstruct_path.
  destruct (reconstruct_loop _ _ _ _) as [back| |] eqn:E; simpl; try done.
  intros [= <-]. simpl.
  destruct (chain_nodup self _ st (Z.to_nat gc) Hinv current gc rfuel [current] back Hgc)
    as (more & -> & Hnd & _); [pose proof (inv_g_nonneg _ _ _ Hinv _ _ Hgc); lia|done|].
  by rewrite reverse_Permutation.
Qed.

(** X12: on a square grid the returned path never passes twice through the
    same cell; hence path_length is at most the explored counter. *)
Theorem a_star_search_path_simple (fuel : nat) (self self' : MarioTrapAvoidance)
    (r : search_result) :
  square (grid_size self) (grid self) →
  a_star_search fuel self = Done (r, self') →
  NoDup (path r) ∧ stats_path_length r <= stats_explored r.
Proof.
  intros Hsq Hrun.
  pose proof (a_star_search_square self self' fuel (fun r => NoDup (path r)) r Hsq
                (step_return_nodup self fuel) Hrun) as Hnd.
  split; [done|].
  destruct (a_star_search_frame fuel self self' r Hrun) as (He & Hlen & _).
  destruct (a_star_search_stats fuel self self' r Hrun) as (_ & _ & Hsub & _).
  rewrite He, Hlen. apply inj_le.
  rewrite <- (size_list_to_set (C := gset coord) (path r)) by done.
  apply subseteq_size. intros c Hc. apply elem_of_list_to_set in Hc. by apply Hsub.
Qed.

Lemma a_star_search_path_simple_witness :
  NoDup (path
       {| path := [(0, 0); (0, 1); (1, 1)];
          res_visited := list_to_set [(0, 0); (0, 1); (1, 1)];
          stats_explored := 3; stats_pruned := 0; stats_path_length := 3 |}) ∧
  stats_path_length
       {| path := [(0, 0); (0, 1); (1, 1)];
          res_visited := list_to_set [(0, 0); (0, 1); (1, 1)];
          stats_explored := 3; stats_pruned := 0; stats_path_length := 3 |}
  <= stats_explored
       {| path := [(0, 0); (0, 1); (1, 1)];
          res_visited := list_to_set [(0, 0); (0, 1); (1, 1)];
          stats_explored := 3; stats_pruned := 0; stats_path_length := 3 |}.
Proof.
  apply (a_star_search_path_simple 6
           {| grid_size := 2; grid := [[0; 2]; [0; 0]]; start := (0, 0); goal := (1, 1) |}
           {| grid_size := 2; grid := [[0; 2]; [0; 0]]; start := (0, 0); goal := (1, 1) |}
           {| path := [(0, 0); (0, 1); (1, 1)];
          res_visited := list_to_set [(0, 0); (0, 1); (1, 1)];
          stats_explored := 3; stats_pruned := 0; stats_path_length := 3 |}).
  - split; [reflexivity|]. repeat constructor.
  - vm_compute. reflexivity.
Defined.

(** ** Grid generation: errors, degenerate requests, best effort *)

(** X13: on an object whose size is zero or negative, asking for at least
    one trap makes initialize_grid raise ValueError (random.randint on an
    empty range), whatever the random source. *)
Theorem initialize_grid_empty_range (self : MarioTrapAvoidance) (trap_count : Z)
    (rnd : nat → Z) :
  grid_size self <= 0 → 1 <= trap_count →
  initialize_grid self trap_count rnd = Raise ValueError.
Proof.
  intros Hn Htc. unfold initialize_grid, place_traps.
  destruct (Z.to_nat (trap_count * 10)) as [|k] eqn:Hk; [lia|]. simpl.
  destruct (0 <? trap_count) eqn:E1; [|lia].
  destruct (0 <? trap_count * 10) eqn:E2; [|lia]. simpl.
  unfold randint. destruct (grid_size self - 1 <? 0) eqn:E3; [done|lia].
Qed.

Lemma initialize_grid_empty_range_witness :
  initialize_grid {| grid_size := 0; grid := []; start := (0, 0); goal := (-1, -1) |}
                  3 (fun _ => 0) = Raise ValueError.
Proof.
  apply (initialize_grid_empty_range
           {| grid_size := 0; grid := []; start := (0, 0); goal := (-1, -1) |} 3 (fun _ => 0)).
  - simpl. lia.
  - lia.
Defined.

(** X14: with a trap_count of zero or less, initialize_grid draws nothing
    and leaves an all-Empty grid of the object's size, whatever the grid
    held before and whatever the size. *)
Theorem initialize_grid_no_traps (self : MarioTrapAvoidance) (trap_count : Z)
    (rnd : nat → Z) :
  trap_count <= 0 →
  initialize_grid self trap_count rnd =
  Done {| grid_size := grid_size self;
          grid := replicate (Z.to_nat (grid_size self))
                            (replicate (Z.to_nat (grid_size self)) EMPTY);
          start := start self; goal := goal self |}.
Proof.
  intros Htc. unfold initialize_grid, place_traps.
  assert (Hloop : ∀ fuel, place_traps_loop fuel self rnd trap_count (trap_count * 10)
                            (zero_grid (grid_size self)) 0 0 0%nat
                          = Done (zero_grid (grid_size self), 0, 0)).
  { intros fuel. destruct fuel; simpl; destruct (0 <? trap_count) eqn:E; done || lia. }
  rewrite Hloop. simpl.
  rewrite mark_dangerous_fixed; [done|apply square_zero_grid|].
  intros t _ Ht. by rewrite cell_zero_grid in Ht.
Qed.

Lemma initialize_grid_no_traps_witness :
  initialize_grid {| grid_size := 2; grid := [[1; 1]; [1; 1]]; start := (0, 0); goal := (1, 1) |}
                  0 (fun _ => 1) =
  Done {| grid_size := 2; grid := replicate (Z.to_nat 2) (replicate (Z.to_nat 2) EMPTY);
          start := (0, 0); goal := (1, 1) |}.
Proof.
  apply (initialize_grid_no_traps
           {| grid_size := 2; grid := [[1; 1]; [1; 1]]; start := (0, 0); goal := (1, 1) |}
           0 (fun _ => 1)).
  lia.
Defined.

(** X15: on a square grid the marking pass only turns Empty cells into
    Dangerous ones: Traps stay where they are, no Trap appears, and every
    cell that was not Empty keeps its value. *)
Theorem mark_dangerous_frame (self : MarioTrapAvoidance) (g g' : list (list Z)) :
  square (grid_size self) g → mark_dangerous self g = Done g' →
  square (grid_size self) g' ∧
  ∀ c, in_bounds (grid_size self) c →
    (cell g' c.1 c.2 = TRAP ↔ cell g c.1 c.2 = TRAP) ∧
    (cell g c.1 c.2 ≠ EMPTY → cell g' c.1 c.2 = cell g c.1 c.2) ∧
    (cell g' c.1 c.2 = cell g c.1 c.2 ∨ cell g' c.1 c.2 = DANGEROUS).
Proof.
  intros Hsq Hm. destruct (mark_dangerous_spec self g Hsq) as (g1 & Hm1 & Hgr & _).
  rewrite Hm in Hm1. inversion Hm1; subst g1. split; [apply Hgr|].
  intros c Hc. split; [by apply (grows_trap self g g')|].
  destruct (proj2 Hgr c Hc) as [->|(H0 & H2 & _)]; [auto|].
  split; [done|]. by right.
Qed.

Lemma mark_dangerous_frame_witness :
  square 2 [[2; 1]; [7; 2]] ∧
  ∀ c, in_bounds 2 c →
    (cell [[2; 1]; [7; 2]] c.1 c.2 = TRAP ↔ cell [[0; 1]; [7; 0]] c.1 c.2 = TRAP) ∧
    (cell [[0; 1]; [7; 0]] c.1 c.2 ≠ EMPTY →
     cell [[2; 1]; [7; 2]] c.1 c.2 = cell [[0; 1]; [7; 0]] c.1 c.2) ∧
    (cell [[2; 1]; [7; 2]] c.1 c.2 = cell [[0; 1]; [7; 0]] c.1 c.2 ∨
     cell [[2; 1]; [7; 2]] c.1 c.2 = DANGEROUS).
Proof.
  apply (mark_dangerous_frame
           {| grid_size := 2; grid := [[0; 1]; [7; 0]]; start := (0, 0); goal := (1, 1) |}
           [[0; 1]; [7; 0]] [[2; 1]; [7; 2]]).
  - split; [reflexivity|]. repeat constructor.
  - reflexivity.
Defined.

Lemma place_traps_loop_attempts (self : MarioTrapAvoidance) (rnd : nat → Z)
    (trap_count max_attempts : Z) (fuel : nat) :
  ∀ g placed attempts calls g' placed' attempts',
    place_traps_loop fuel self rnd trap_count max_attempts g placed attempts calls
      = Done (g', placed', attempts') →
    attempts <= max_attempts → attempts <= attempts' <= max_attempts.
Proof.
  induction fuel as [|fuel IH]; intros g placed attempts calls g' placed' attempts' H Hle;
    simpl in H;
    destruct ((placed <? trap_count) && (attempts <? max_attempts)) eqn:E;
    try done; try (inversion H; subst; lia).
  apply andb_true_iff in E as [_ E]. apply Z.ltb_lt in E.
  unfold randint in H. destruct (grid_size self - 1 <? 0); [done|]. simpl in H.
  match type of H with
  | obind ?body _ = _ => destruct body as [gp| |] eqn:Eb; try done
  end.
  simpl in H. apply IH in H; lia.
Qed.

(** X16: trap placement is best effort: for a non-negative trap_count the
    loop ends either with exactly trap_count traps on the grid, or with
    fewer traps and all 10 * trap_count attempts used up. *)
Theorem place_traps_best_effort (self : MarioTrapAvoidance) (trap_count : Z)
    (rnd : nat → Z) :
  rnd_ok (grid_size self) rnd → 0 <= trap_count →
  ∃ g placed attempts,
    place_traps_loop (Z.to_nat (trap_count * 10)) self rnd trap_count (trap_count * 10)
                     (zero_grid (grid_size self)) 0 0 0%nat
    = Done (g, placed, attempts) ∧
    place_traps self trap_count rnd = Done g ∧
    count_traps g = placed ∧
    (placed = trap_count ∨ (placed < trap_count ∧ attempts = trap_count * 10)).
Proof.
  intros Hrnd Htc. pose proof (rnd_ok_size _ _ Hrnd) as Hn.
  destruct (place_traps_loop_spec self rnd trap_count (trap_count * 10) Hrnd Hn
              (Z.to_nat (trap_count * 10)) (zero_grid (grid_size self)) 0 0 0%nat)
    as (g & placed & attempts & Hl & Hinv & Hexit);
    [apply placement_inv_zero|lia|].
  exists g, placed, attempts. split; [done|].
  split; [unfold place_traps; by rewrite Hl|].
  destruct Hinv as (_ & Hcnt & Hle & _). split; [done|].
  pose proof (place_traps_loop_attempts _ _ _ _ _ _ _ _ _ _ _ _ Hl) as Ha.
  lia.
Qed.

Lemma place_traps_best_effort_witness :
  ∃ g placed attempts,
    place_traps_loop (Z.to_nat (1 * 10))
      {| grid_size := 2; grid := []; start := (0, 0); goal := (1, 1) |}
      (fun _ => 0) 1 (1 * 10) (zero_grid 2) 0 0 0%nat
    = Done (g, placed, attempts) ∧
    place_traps {| grid_size := 2; grid := []; start := (0, 0); goal := (1, 1) |}
                1 (fun _ => 0) = Done g ∧
    count_traps g = placed ∧
    (placed = 1 ∨ (placed < 1 ∧ attempts = 1 * 10)).
Proof.
  apply (place_traps_best_effort
           {| grid_size := 2; grid := []; start := (0, 0); goal := (1, 1) |} 1 (fun _ => 0)).
  - intros k. simpl. lia.
  - lia.
Defined.

(** ** The request handlers *)

Lemma is_square_square (g : list (list Z)) :
  is_square g = true → square (Z.of_nat (length g)) g.
Proof.
  unfold is_square, square. rewrite Nat2Z.id. intros H. split; [done|].
  apply Forall_forall. intros row Hrow.
  rewrite forallb_forall in H. apply list_elem_of_In in Hrow.
  by apply Nat.eqb_eq, H.
Qed.

Lemma find_path_cons (fuel : nat) (row : list Z) (g : list (list Z)) :
  find_path fuel (Some (row :: g)) =
  obind (a_star_search fuel
           {| grid_size := Z.of_nat (length (row :: g)); grid := row :: g; start := (0, 0);
              goal := (Z.of_nat (length (row :: g)) - 1,
                       Z.of_nat (length (row :: g)) - 1) |})
        (fun rs => Done (Json rs.1)).
Proof. reflexivity. Qed.

(** X17: for every non-empty square matrix, find_path answers with a search
    result (never the 400 answer, never an exception); the result is the
    empty path when no safe route exists in the matrix and a cheapest safe
    route otherwise. *)
Theorem find_path_square (g : list (list Z)) :
  g ≠ [] → is_square g = true →
  ∃ N r, (∀ fuel, (N ≤ fuel)%nat → find_path fuel (Some g) = Done (Json r)) ∧
         search_post {| grid_size := Z.of_nat (length g); grid := g; start := (0, 0);
                        goal := (Z.of_nat (length g) - 1, Z.of_nat (length g) - 1) |} r.
Proof.
  intros Hne Hsq. apply is_square_square in Hsq.
  destruct (a_star_search_correct
              {| grid_size := Z.of_nat (length g); grid := g; start := (0, 0);
                 goal := (Z.of_nat (length g) - 1, Z.of_nat (length g) - 1) |} Hsq)
    as (N & r & Hrun & Hpost).
  exists N, r. split; [|done]. intros fuel Hle.
  destruct g as [|row g']; [done|]. rewrite find_path_cons, (Hrun fuel Hle). done.
Qed.

Lemma find_path_square_witness :
  ∃ N r, (∀ fuel, (N ≤ fuel)%nat → find_path fuel (Some [[0; 2]; [2; 1]]) = Done (Json r)) ∧
         search_post {| grid_size := Z.of_nat (length [[0; 2]; [2; 1]]);
                        grid := [[0; 2]; [2; 1]]; start := (0, 0);
                        goal := (Z.of_nat (length [[0; 2]; [2; 1]]) - 1,
                                 Z.of_nat (length [[0; 2]; [2; 1]]) - 1) |} r.
Proof.
  apply (find_path_square [[0; 2]; [2; 1]]).
  - discriminate.
  - reflexivity.
Defined.

(** X18: a matrix with a single row, whatever the row holds, is answered
    with the one-cell path [(0, 0)]: start is the goal and the grid is never
    read. *)
Theorem find_path_single_row (row : list Z) (fuel : nat) :
  (1 ≤ fuel)%nat →
  ∃ r, find_path fuel (Some [row]) = Done (Json r) ∧
       path r = [(0, 0)] ∧ stats_path_length r = 1 ∧
       stats_explored r = 1 ∧ stats_pruned r = 0.
Proof.
  intros Hf. destruct fuel as [|fuel]; [lia|].
  eexists. split; [vm_compute; reflexivity|]. repeat split.
Qed.

Lemma find_path_single_row_witness :
  ∃ r, find_path 1 (Some [[1; 1; 1]]) = Done (Json r) ∧
       path r = [(0, 0)] ∧ stats_path_length r = 1 ∧
       stats_explored r = 1 ∧ stats_pruned r = 0.
Proof. apply (find_path_single_row [1; 1; 1] 1). lia. Defined.

(** X19: new_grid followed by find_path.  For a size of at least 1 the grid
    that new_grid returns is a square matrix of that size with start (0,0)
    and goal (N-1,N-1), and feeding that matrix to find_path gives the
    result of the search on the generated object: the matrix alone carries
    all the search needs. *)
Theorem new_grid_find_path (size trap_count : option Z) (rnd : nat → Z) :
  rnd_ok (default 10 size) rnd →
  ∃ resp N r,
    new_grid size trap_count rnd = Done resp ∧
    square (default 10 size) (resp_grid resp) ∧
    resp_start resp = (0, 0) ∧
    resp_goal resp = (default 10 size - 1, default 10 size - 1) ∧
    (∀ fuel, (N ≤ fuel)%nat →
       find_path fuel (Some (resp_grid resp)) = Done (Json r) ∧
       a_star_search fuel {| grid_size := default 10 size; grid := resp_grid resp;
                             start := resp_start resp; goal := resp_goal resp |}
       = Done (r, {| grid_size := default 10 size; grid := resp_grid resp;
                     start := resp_start resp; goal := resp_goal resp |})).
Proof.
  set (n := default 10 size). intros Hrnd. pose proof (rnd_ok_size _ _ Hrnd) as Hn.
  pose (self := {| grid_size := n; grid := zero_grid n;
                   start := (0, 0); goal := (n - 1, n - 1) |}).
  destruct (place_traps_spec self (default 15 trap_count) rnd Hrnd Hn)
    as (g & placed & Hp & Hinv).
  destruct (mark_dangerous_spec self g (proj1 Hinv)) as (g' & Hm & Hgr & _).
  assert (Hsq : square n g') by apply Hgr.
  destruct (a_star_search_correct
              {| grid_size := n; grid := g'; start := (0, 0); goal := (n - 1, n - 1) |} Hsq)
    as (N & r & Hrun & _).
  exists {| resp_grid := g'; resp_start := (0, 0); resp_goal := (n - 1, n - 1) |}, N, r.
  split.
  { unfold new_grid, init. fold n. simpl obind. fold self.
    unfold initialize_grid. rewrite Hp. simpl. rewrite Hm. done. }
  split; [done|]. split; [done|]. split; [done|].
  intros fuel Hle. cbn [resp_grid resp_start resp_goal]. split; [|by apply Hrun].
  assert (Hlen : Z.of_nat (length g') = n) by (destruct Hsq as [-> _]; lia).
  destruct g' as [|row rest]; [simpl in Hlen; lia|].
  rewrite find_path_cons, Hlen, (Hrun fuel Hle). done.
Qed.

Lemma new_grid_find_path_witness :
  ∃ resp N r,
    new_grid (Some 3) (Some 1) (fun _ => 1) = Done resp ∧
    square (default 10 (Some 3)) (resp_grid resp) ∧
    resp_start resp = (0, 0) ∧
    resp_goal resp = (default 10 (Some 3) - 1, default 10 (Some 3) - 1) ∧
    (∀ fuel, (N ≤ fuel)%nat →
       find_path fuel (Some (resp_grid resp)) = Done (Json r) ∧
       a_star_search fuel {| grid_size := default 10 (Some 3); grid := resp_grid resp;
                             start := resp_start resp; goal := resp_goal resp |}
       = Done (r, {| grid_size := default 10 (Some 3); grid := resp_grid resp;
                     start := resp_start resp; goal := resp_goal resp |})).
Proof.
  apply (new_grid_find_path (Some 3) (Some 1) (fun _ => 1)).
  intros k. simpl. lia.
Defined.

(** ** An object without cells *)

Lemma get_neighbors_nil (self : MarioTrapAvoidance) (x y : Z) :
  grid_size self <= 0 → get_neighbors self x y = [].
Proof.
  intros Hn. unfold get_neighbors, directions. simpl.
  repeat match goal with
         | |- context [in_range ?n ?a ?b] =>
             let E := fresh "E" in
             destruct (in_range n a b) eqn:E; [apply in_range_spec in E; lia|]
         end.
  done.
Qed.

(** X20: on an object whose size is zero or negative (as __init__ builds
    them for such sizes, start differing from goal), a_star_search settles
    start alone and returns the empty path; the grid is never read. *)
Theorem a_star_search_no_cells (self : MarioTrapAvoidance) (fuel : nat) :
  grid_size self <= 0 → start self ≠ goal self → (2 ≤ fuel)%nat →
  ∃ r, a_star_search fuel self = Done (r, self) ∧
       path r = [] ∧ stats_path_length r = 0 ∧
       stats_explored r = 1 ∧ stats_pruned r = 0 ∧
       res_visited r = {[ start self ]}.
Proof.
  intros Hn Hne Hf. destruct fuel as [|[|fuel]]; [lia|lia|].
  eexists. split.
  { unfold a_star_search. cbn [a_star_loop]. unfold a_star_step at 1.
    cbn [initial_state open_set heappush visited came_from g_score f_score explored pruned].
    rewrite bool_decide_eq_false_2 by apply not_elem_of_empty.
    rewrite bool_decide_eq_false_2 by done.
    rewrite get_neighbors_nil by done. cbn [foldM obind].
    unfold a_star_step. cbn [open_set obind]. reflexivity. }
  cbn [path stats_path_length stats_explored stats_pruned res_visited visited explored pruned].
  split; [done|]. split; [done|]. split; [done|]. split; [done|].
  apply (right_id_L ∅ (∪)).
Qed.

Lemma a_star_search_no_cells_witness :
  ∃ r, a_star_search 2 {| grid_size := -1; grid := []; start := (0, 0); goal := (-2, -2) |}
       = Done (r, {| grid_size := -1; grid := []; start := (0, 0); goal := (-2, -2) |}) ∧
       path r = [] ∧ stats_path_length r = 0 ∧
       stats_explored r = 1 ∧ stats_pruned r = 0 ∧
       res_visited r = {[ (0, 0) ]}.
Proof.
  apply (a_star_search_no_cells
           {| grid_size := -1; grid := []; start := (0, 0); goal := (-2, -2) |} 2).
  - simpl. lia.
  - simpl. congruence.
  - lia.
Defined.

(** * The search leaves the object alone *)

(** ** Which computations are read-only *)

Lemma readonly_ret {A} (a : A) : Store.readonly (Store.ret a).
Proof. intros self a' self' [= _ <-]. done. Qed.

Lemma readonly_get : Store.readonly Store.get.
Proof. intros self a self' [= _ <-]. done. Qed.

Lemma readonly_lift {A} (o : outcome A) : Store.readonly (Store.lift o).
Proof. intros self a self'. unfold Store.lift. destruct o; simpl; [|done|done]. by intros [= _ <-]. Qed.

Lemma readonly_bind {A B} (m : Store.M A) (k : A → Store.M B) :
  Store.readonly m → (∀ a, Store.readonly (k a)) → Store.readonly (Store.bind m k).
Proof.
  intros Hm Hk self b self'. unfold Store.bind.
  destruct (m self) as [[a s1]| |] eqn:E; [|done|done].
  apply Hm in E. subst s1. apply Hk.
Qed.

Lemma readonly_for_each {A S} (f : S → A → Store.M S) (l : list A) :
  (∀ s a, Store.readonly (f s a)) → ∀ s, Store.readonly (Store.for_each f l s).
Proof.
  intros Hf. induction l as [|a l IH]; intros s; simpl.
  - apply readonly_ret.
  - apply readonly_bind; [apply Hf|apply IH].
Qed.

(** An assignment to the grid is seen in the object returned. *)
Lemma write_grid_not_readonly : ¬ Store.readonly (Store.write_grid 0 0 TRAP).
Proof.
  intros H.
  specialize (H {| grid_size := 1; grid := [[0]]; start := (0, 0); goal := (0, 0) |} tt
                {| grid_size := 1; grid := [[1]]; start := (0, 0); goal := (0, 0) |}).
  discriminate H. reflexivity.
Qed.

Lemma readonly_read_grid (x y : Z) : Store.readonly (Store.read_grid x y).
Proof.
  apply readonly_bind; [apply readonly_get|]. intros self. apply readonly_lift.
Qed.

Lemma readonly_get_neighbors (x y : Z) : Store.readonly (Store.get_neighbors x y).
Proof.
  apply readonly_bind; [apply readonly_get|]. intros self. apply readonly_ret.
Qed.

Lemma readonly_heuristic (pos : coord) : Store.readonly (Store.heuristic pos).
Proof.
  apply readonly_bind; [apply readonly_get|]. intros self. apply readonly_ret.
Qed.

Lemma readonly_is_safe_path (x y : Z) : Store.readonly (Store.is_safe_path x y).
Proof.
  apply readonly_bind; [apply readonly_read_grid|]. intros c.
  destruct (c =? TRAP); [apply readonly_ret|].
  apply readonly_bind; [apply readonly_get_neighbors|]. intros neighbors.
  apply readonly_bind.
  - apply readonly_for_each. intros cnt n.
    apply readonly_bind; [apply readonly_read_grid|]. intros v. apply readonly_ret.
  - intros cnt. destruct (3 <=? cnt); apply readonly_ret.
Qed.

Lemma readonly_relax (current : coord) (st : search_state) (neighbor : coord) :
  Store.readonly (Store.relax current st neighbor).
Proof.
  apply readonly_bind; [apply readonly_is_safe_path|]. intros safe.
  destruct safe; simpl; [|apply readonly_ret].
  apply readonly_bind; [apply readonly_read_grid|]. intros c.
  destruct (g_score st !! current) as [gc|]; [|apply readonly_ret].
  destruct (match g_score st !! neighbor with Some gn => _ | None => _ end);
    [|apply readonly_ret].
  apply readonly_bind; [apply readonly_heuristic|]. intros h. apply readonly_ret.
Qed.

Lemma readonly_a_star_step (rfuel : nat) (st : search_state) :
  Store.readonly (Store.a_star_step rfuel st).
Proof.
  unfold Store.a_star_step.
  destruct (open_set st) as [|[f current] rest]; [apply readonly_ret|].
  destruct (bool_decide (current ∈ visited st)); [apply readonly_ret|].
  apply readonly_bind; [apply readonly_get|]. intros self.
  destruct (bool_decide (current = goal self)).
  - apply readonly_bind; [apply readonly_lift|]. intros p. apply readonly_ret.
  - apply readonly_bind; [apply readonly_get_neighbors|]. intros neighbors.
    apply readonly_bind; [|intros st'; apply readonly_ret].
    apply readonly_for_each. intros s c. apply readonly_relax.
Qed.

Lemma readonly_a_star_loop (fuel rfuel : nat) :
  ∀ st, Store.readonly (Store.a_star_loop fuel rfuel st).
Proof.
  induction fuel as [|fuel IH]; intros st; simpl; [done|].
  apply readonly_bind; [apply readonly_a_star_step|].
  intros [st'|r]; [apply IH|apply readonly_ret].
Qed.

(** C8: a_star_search never mutates the grid.  With the object threaded
    through every statement of the method and of the methods it calls,
    whatever the call returns (a path or the empty path) the object after
    the call is the object before it: its grid, cell for cell, and its
    size, start and goal. *)
Theorem a_star_search_never_writes (fuel : nat) (self self' : MarioTrapAvoidance)
    (r : search_result) :
  Store.a_star_search fuel self = Done (r, self') →
  grid self' = grid self ∧ self' = self.
Proof.
  intros H. assert (Hro : Store.readonly (Store.a_star_search fuel)).
  { apply readonly_bind; [apply readonly_get|]. intros s.
    apply readonly_bind; [apply readonly_heuristic|]. intros h.
    apply readonly_a_star_loop. }
  apply Hro in H. by subst.
Qed.

Lemma a_star_search_never_writes_witness :
  Store.a_star_search 6 {| grid_size := 2; grid := [[0; 1]; [1; 0]];
                           start := (0, 0); goal := (1, 1) |}
  = Done ({| path := []; res_visited := list_to_set [(0, 0)];
             stats_explored := 1; stats_pruned := 2; stats_path_length := 0 |},
          {| grid_size := 2; grid := [[0; 1]; [1; 0]]; start := (0, 0); goal := (1, 1) |}) ∧
  Store.a_star_search 6 {| grid_size := 2; grid := [[0; 0]; [1; 0]];
                           start := (0, 0); goal := (1, 1) |}
  = Done ({| path := [(0, 0); (1, 0); (1, 1)];
             res_visited := list_to_set [(0, 0); (1, 0); (1, 1)];
             stats_explored := 3; stats_pruned := 1; stats_path_length := 3 |},
          {| grid_size := 2; grid := [[0; 0]; [1; 0]]; start := (0, 0); goal := (1, 1) |}) ∧
  (grid {| grid_size := 2; grid := [[0; 1]; [1; 0]]; start := (0, 0); goal := (1, 1) |}
   = grid {| grid_size := 2; grid := [[0; 1]; [1; 0]]; start := (0, 0); goal := (1, 1) |} ∧
   {| grid_size := 2; grid := [[0; 1]; [1; 0]]; start := (0, 0); goal := (1, 1) |}
   = {| grid_size := 2; grid := [[0; 1]; [1; 0]]; start := (0, 0); goal := (1, 1) |}).
Proof.
  split; [vm_compute; reflexivity|]. split; [vm_compute; reflexivity|].
  apply (a_star_search_never_writes 6
           {| grid_size := 2; grid := [[0; 1]; [1; 0]]; start := (0, 0); goal := (1, 1) |}
           {| grid_size := 2; grid := [[0; 1]; [1; 0]]; start := (0, 0); goal := (1, 1) |}
           {| path := []; res_visited := list_to_set [(0, 0)];
              stats_explored := 1; stats_pruned := 2; stats_path_length := 0 |}).
  vm_compute. reflexivity.
Defined.

(** ** The two embeddings agree *)

Lemma for_each_foldM {A S} (self : MarioTrapAvoidance) (f : S → A → Store.M S)
    (f' : S → A → outcome S) (l : list A) :
  (∀ s a, f s a self = obind (f' s a) (fun s' => Done (s', self))) →
  ∀ s, Store.for_each f l s self = obind (foldM f' l s) (fun s' => Done (s', self)).
Proof.
  intros Hf. induction l as [|a l IH]; intros s; simpl; [done|].
  unfold Store.bind. rewrite Hf. destruct (f' s a) as [s1| |]; simpl; [apply IH|done|done].
Qed.

Lemma store_is_safe_path (self : MarioTrapAvoidance) (x y : Z) :
  Store.is_safe_path x y self = obind (is_safe_path self x y) (fun b => Done (b, self)).
Proof.
  unfold Store.is_safe_path, is_safe_path, Store.bind, Store.read_grid, Store.bind,
    Store.get, Store.lift.
  destruct (grid_get (grid self) x y) as [c| |]; simpl; [|done|done].
  destruct (c =? TRAP); [done|]. unfold Store.get_neighbors, Store.bind, Store.get, Store.ret.
  rewrite (for_each_foldM self _
             (fun (cnt : Z) (n : coord) =>
                obind (grid_get (grid self) n.1 n.2)
                      (fun v => Done (if (v =? DANGEROUS) || (v =? TRAP) then cnt + 1 else cnt)))).
  - destruct (foldM _ _ _) as [cnt| |]; simpl; [|done|done]. by destruct (3 <=? cnt).
  - intros cnt n. unfold Store.bind, Store.get, Store.lift.
    by destruct (grid_get (grid self) n.1 n.2).
Qed.

Lemma store_relax (self : MarioTrapAvoidance) (current : coord) (st : search_state)
    (neighbor : coord) :
  Store.relax current st neighbor self
  = obind (relax self current st neighbor) (fun st' => Done (st', self)).
Proof.
  unfold Store.relax, relax, Store.bind. rewrite store_is_safe_path.
  destruct (is_safe_path self neighbor.1 neighbor.2) as [[|]| |]; simpl; try done.
  unfold Store.read_grid, Store.bind, Store.get, Store.lift.
  destruct (grid_get (grid self) neighbor.1 neighbor.2) as [c| |]; simpl; [|done|done].
  destruct (g_score st !! current) as [gc|]; [|done].
  by destruct (match g_score st !! neighbor with Some gn => _ | None => _ end).
Qed.

Lemma store_a_star_step (self : MarioTrapAvoidance) (rfuel : nat) (st : search_state) :
  Store.a_star_step rfuel st self
  = obind (a_star_step rfuel self st) (fun sr => Done (sr, self)).
Proof.
  unfold Store.a_star_step, a_star_step.
  destruct (open_set st) as [|[f current] rest]; [done|].
  destruct (bool_decide (current ∈ visited st)); [done|].
  unfold Store.bind at 1. unfold Store.get.
  destruct (bool_decide (current = goal self)).
  - unfold Store.bind, Store.reconstruct_path, Store.lift.
    by destruct (reconstruct_path rfuel (came_from st) current).
  - unfold Store.bind at 1. unfold Store.get_neighbors, Store.bind at 1.
    unfold Store.get, Store.ret. unfold Store.bind.
    rewrite (for_each_foldM self _ (relax self current)) by apply store_relax.
    by destruct (foldM _ _ _).
Qed.

Lemma store_a_star_loop (self : MarioTrapAvoidance) (fuel rfuel : nat) :
  ∀ st, Store.a_star_loop fuel rfuel st self
        = obind (a_star_loop fuel rfuel self st) (fun r => Done (r, self)).
Proof.
  induction fuel as [|fuel IH]; intros st; simpl; [done|].
  unfold Store.bind. rewrite store_a_star_step.
  destruct (a_star_step rfuel self st) as [[st'|r]| |]; simpl; [apply IH|done|done|done].
Qed.

(** The store-threaded search computes what [a_star_search] computes. *)
Lemma store_a_star_search (self : MarioTrapAvoidance) (fuel : nat) :
  Store.a_star_search fuel self = a_star_search fuel self.
Proof.
  unfold Store.a_star_search, a_star_search, Store.bind, Store.get, Store.heuristic,
    Store.bind, Store.get, Store.ret.
  apply store_a_star_loop.
Qed.

(** * The start cell and the safety predicate *)


